(** * taskcluster-tools, [lib/utils.jsx]: the three component mixins

    A shallow embedding of [createTaskClusterMixin] (asynchronous state
    loading with a stale-response guard), [createWebListenerMixin]
    (the Pulse subscription manager) and [createLocationHashMixin]
    (the URL fragment synchronizer), together with the string helpers
    [escapeChar], [unescapeChar] and [encodeFragment].

    JavaScript strings are sequences of UTF-16 code units and are modelled
    as [list N]; objects used as maps ([this.state], the iteration map) are
    [gmap]s keyed by such strings.  Promises are modelled by the callbacks
    they run when they settle: every [then] handler of the source is a
    state transformer of its own, run by an explicit settlement event. *)

From Stdlib Require Import ZArith NArith List Lia String Ascii Bool.
From stdpp Require Import base gmap list.

Set Warnings "-register-all".
Local Open Scope N_scope.

(** ** JavaScript values, strings and exceptions *)

Module JS.

(** A string is its list of UTF-16 code units. *)
Abbreviation jsstring := (list N).

Fixpoint js (s : string) : jsstring :=
  match s with
  | EmptyString => []
  | String a s' => N_of_ascii a :: js s'
  end.

Definition ch (a : ascii) : N := N_of_ascii a.

(** The values that flow through the mixins.  Numbers are kept to the
    integers and [NaN]; objects other than errors and arrays are opaque. *)
Inductive jsval :=
| JUndefined
| JNull
| JBool (b : bool)
| JNum (z : Z)
| JNaN
| JStr (s : jsstring)
| JErr (name message : jsstring)
| JObj (tag : N)
| JArr (items : list jsval).

(** ToBoolean. *)
Definition truthy (v : jsval) : bool :=
  match v with
  | JUndefined | JNull | JNaN => false
  | JBool b => b
  | JNum z => negb (z =? 0)%Z
  | JStr s => match s with [] => false | _ => true end
  | JErr _ _ | JObj _ | JArr _ => true
  end.

(** [a || b]. *)
Definition js_or (a b : jsval) : jsval := if truthy a then a else b.

(** [new Error(msg)]. *)
Definition new_Error (msg : string) : jsval := JErr (js "Error") (js msg).

Inductive exn :=
| TypeError (msg : jsstring)
| URIError
| SyntaxError
| AssertionError (msg : jsstring).

Inductive result (A : Type) :=
| Ok (a : A)
| Throw (e : exn).
Arguments Ok {A} a.
Arguments Throw {A} e.

Definition bind {A B} (r : result A) (k : A -> result B) : result B :=
  match r with
  | Ok a => k a
  | Throw e => Throw e
  end.

(** Reading a property of [v]: a [TypeError] on [undefined] and [null],
    some value on everything else.  Only whether the read throws matters
    to the callers below, so the value read is left as [undefined]. *)
Definition get_property (v : jsval) (name : string) : result jsval :=
  match v with
  | JUndefined | JNull =>
      Throw (TypeError (js "Cannot read property of undefined or null"))
  | _ => Ok JUndefined
  end.

(** [n.toString(16)] on a non-negative integer: lower-case digits, no
    padding. *)
Definition hexdigit (d : N) : N := if d <? 10 then 48 + d else 87 + d.

Fixpoint toString16_go (fuel : nat) (n : N) (acc : jsstring) : jsstring :=
  match fuel with
  | O => acc
  | S f =>
      let acc' := hexdigit (n mod 16) :: acc in
      if n / 16 =? 0 then acc' else toString16_go f (n / 16) acc'
  end.

Definition toString16 (n : N) : jsstring :=
  toString16_go (S (N.to_nat (N.log2 n))) n [].

(** The state object of a React component; [setState] merges the given
    partial state into it. *)
Definition setState (partial st : gmap jsstring jsval) : gmap jsstring jsval :=
  partial ∪ st.

End JS.
Import JS.

(** ** String helpers: [escapeChar], [unescapeChar], [encodeFragment] *)

Module Strings.

(** The class [[\-\[\]\/\{\}\(\)\*\+\?\.\\\^\$\|]] of
    [escapeForRegularExpression]. *)
Definition regexp_special (c : N) : bool :=
  existsb (N.eqb c)
    [ch "-"; ch "["; ch "]"; ch "/"; ch "{"; ch "}"; ch "("; ch ")";
     ch "*"; ch "+"; ch "?"; ch "."; ch "\"; ch "^"; ch "$"; ch "|"].

(** [string.replace(/[...]/g, "\\$&")]: every special character gets a
    backslash in front of it. *)
Definition escapeForRegularExpression (s : jsstring) : jsstring :=
  flat_map (fun c => if regexp_special c then [ch "\"; c] else [c]) s.

(** The pattern grammar of the language, as far as literal patterns go.
    A [SyntaxCharacter] is one of [^ $ \ . * + ? ( ) [ ] { } |]; every other
    character of a pattern stands for itself. *)
Definition syntax_character (c : N) : bool :=
  existsb (N.eqb c)
    [ch "^"; ch "$"; ch "\"; ch "."; ch "*"; ch "+"; ch "?"; ch "("; ch ")";
     ch "["; ch "]"; ch "{"; ch "}"; ch "|"].

Definition ascii_word_character (c : N) : bool :=
  ((ch "a" <=? c) && (c <=? ch "z"))
  || ((ch "A" <=? c) && (c <=? ch "Z"))
  || ((ch "0" <=? c) && (c <=? ch "9"))
  || (c =? ch "_").

(** After a backslash, an ASCII character that is no letter, digit or
    underscore is an identity escape and stands for itself.  Letters and
    digits after a backslash are classes, control characters, assertions
    or back references ([\d], [\n], [\b], [\1], ...). *)
Definition identity_escape (d : N) : bool :=
  (d <? 128) && negb (ascii_word_character d).

(** [new RegExp(src, 'g')] for the patterns that are sequences of literal
    characters: the characters matched, in order.  A pattern with a bare
    syntax character or with an escape that is no identity escape is not
    such a sequence ([None]); so is a pattern that ends in a backslash,
    which is a syntax error. *)
Fixpoint RegExp (src : jsstring) : option jsstring :=
  match src with
  | [] => Some []
  | c :: rest =>
      if c =? ch "\" then
        match rest with
        | d :: rest' =>
            if identity_escape d then cons d <$> RegExp rest' else None
        | [] => None
        end
      else if syntax_character c then None
      else cons c <$> RegExp rest
  end.

Fixpoint prefixb (p s : jsstring) : bool :=
  match p, s with
  | [], _ => true
  | a :: p', b :: s' => (a =? b) && prefixb p' s'
  | _ :: _, [] => false
  end.

(** [string.replace(re, f)] for a global literal pattern: the matches are
    taken leftmost first and do not overlap.  [skip] counts the characters
    of the current match still to be passed over. *)
Fixpoint replace_go (needle : jsstring) (f : jsstring -> jsstring)
    (skip : nat) (s : jsstring) : jsstring :=
  match s with
  | [] => []
  | c :: s' =>
      match skip with
      | S k => replace_go needle f k s'
      | O =>
          if prefixb needle s
          then f needle ++ replace_go needle f (length needle - 1) s'
          else c :: replace_go needle f 0 s'
      end
  end.

Definition replace (needle : jsstring) (f : jsstring -> jsstring)
    (s : jsstring) : jsstring :=
  match needle with
  | [] => f [] ++ flat_map (fun c => c :: f []) s
  | _ => replace_go needle f 0 s
  end.

(** [s.includes(needle)]. *)
Fixpoint includes (needle s : jsstring) : bool :=
  prefixb needle s
  || match s with
     | [] => false
     | _ :: s' => includes needle s'
     end.

(** ['%' + c.charCodeAt(0).toString(16)]; [charCodeAt] of an empty string
    is [NaN]. *)
Definition percent_hex (c : jsstring) : jsstring :=
  match c with
  | x :: _ => ch "%" :: toString16 x
  | [] => js "%NaN"
  end.

Definition assert_length_1 (character : jsstring) : result unit :=
  if (length character =? 1)%nat then Ok tt
  else Throw (AssertionError (js "character must have length 1")).

Definition escapeChar (character string : jsstring) : result jsstring :=
  bind (assert_length_1 character) (fun _ =>
  match RegExp (escapeForRegularExpression character) with
  | Some regExp => Ok (replace regExp percent_hex string)
  | None => Throw SyntaxError
  end).

(** The replacement is the one-character string [character]: it holds no
    [$]-pattern, so every match is replaced by it as it is. *)
Definition unescapeChar (character string : jsstring) : result jsstring :=
  bind (assert_length_1 character) (fun _ =>
  let needle := percent_hex character in
  match RegExp (escapeForRegularExpression needle) with
  | Some regExp => Ok (replace regExp (fun _ => character) string)
  | None => Throw SyntaxError
  end).

(** The complement of the class of [encodeFragment]:
    [a-zA-Z0-9!$&'()*+,;=:@\-._~?\/]. *)
Definition fragment_safe (c : N) : bool :=
  ((ch "a" <=? c) && (c <=? ch "z"))
  || ((ch "A" <=? c) && (c <=? ch "Z"))
  || ((ch "0" <=? c) && (c <=? ch "9"))
  || existsb (N.eqb c)
       [ch "!"; ch "$"; ch "&"; ch "'"; ch "("; ch ")"; ch "*"; ch "+";
        ch ","; ch ";"; ch "="; ch ":"; ch "@"; ch "-"; ch "."; ch "_";
        ch "~"; ch "?"; ch "/"].

Definition encodeFragment (s : jsstring) : jsstring :=
  flat_map (fun c => if fragment_safe c then [c] else percent_hex [c]) s.

End Strings.
Import Strings.

(** ** The asynchronous state loader, [createTaskClusterMixin] *)

Module TaskClusterMixin.

(** The values held by the two iteration maps.  Both are plain objects, so
    a read finds what [Object.prototype] has under a name when the map has
    no property of its own there, and [x += 1] on such a value makes a
    string. *)
Inductive iteration :=
| Count (n : N)
    (* the number n; the code only makes integers up to 2^53 *)
| Inherited (name : jsstring) (ones : nat)
    (* Object.prototype[name] itself when ones = 0, otherwise the string
       String(Object.prototype[name]) followed by ones characters '1' *)
| Prototype.
    (* Object.prototype, which is what reading __proto__ gives *)

#[global] Instance iteration_eq_dec : EqDecision iteration.
Proof. solve_decision. Defined.

(** The names under which [Object.prototype] has a property, [__proto__]
    apart. *)
Definition Object_prototype_names : list jsstring :=
  [js "constructor"; js "toString"; js "toLocaleString"; js "valueOf";
   js "hasOwnProperty"; js "isPrototypeOf"; js "propertyIsEnumerable";
   js "__defineGetter__"; js "__defineSetter__"; js "__lookupGetter__";
   js "__lookupSetter__"].

(** [m[key]]; [None] is [undefined]. *)
Definition read (m : gmap jsstring iteration) (key : jsstring)
    : option iteration :=
  if decide (key = js "__proto__") then Some Prototype
  else
    match m !! key with
    | Some v => Some v
    | None =>
        if decide (key ∈ Object_prototype_names)
        then Some (Inherited key 0)
        else None
    end.

(** [m[key] = v].  Under [__proto__] the assignment sets the prototype
    and makes no property: the code assigns there a string, which is
    ignored, or [Object.prototype], which the map has as its prototype
    already. *)
Definition write (m : gmap jsstring iteration) (key : jsstring)
    (v : iteration) : gmap jsstring iteration :=
  if decide (key = js "__proto__") then m else <[key := v]> m.

(** [v + 1]: numbers are doubles, and 2^53 + 1 rounds back to 2^53; an
    object is turned into its string first. *)
Definition plus_one (v : iteration) : iteration :=
  match v with
  | Count n => Count (if n <? 2 ^ 53 then n + 1 else n)
  | Inherited name ones => Inherited name (S ones)
  | Prototype => Inherited (js "__proto__") 1
  end.

(** What [loadState] reads and writes of the component: [this.state] and
    [this.__promisedStateIterationMap] ([None] while it is [undefined]).
    [this.state] is kept as the map of its own properties. *)
Record component := {
  state : gmap jsstring jsval;
  this_promisedStateIterationMap : option (gmap jsstring iteration)
}.

Definition initial : component :=
  {| state := ∅; this_promisedStateIterationMap := None |}.

(** How a promise settles. *)
Inductive outcome :=
| Fulfilled (v : jsval)
| Rejected (e : jsval).

Definition exn_value (e : exn) : jsval :=
  match e with
  | TypeError m => JErr (js "TypeError") m
  | URIError => JErr (js "URIError") []
  | SyntaxError => JErr (js "SyntaxError") []
  | AssertionError m => JErr (js "AssertionError") m
  end.

(** The body of the [_.forIn] loop of [loadState] for one key, on the
    local [state], [this.__promisedStateIterationMap] and the local
    [promisedStateIterationMap]. *)
Definition loadState_body (key : jsstring)
    (acc : gmap jsstring jsval * gmap jsstring iteration
           * gmap jsstring iteration)
    : gmap jsstring jsval * gmap jsstring iteration
      * gmap jsstring iteration :=
  let '(st, this_map, promisedStateIterationMap) := acc in
  let st := <[key ++ js "Loaded" := JBool false]> st in
  let st := <[key ++ js "Error" := JUndefined]> st in
  let st := <[key := JUndefined]> st in
  let this_map :=
    match read this_map key with
    | None => write this_map key (Count 0)
    | Some _ => this_map
    end in
  let this_map :=
    match read this_map key with
    | Some v => write this_map key (plus_one v)
    | None => this_map (* not reached: the read is defined by now *)
    end in
  let promisedStateIterationMap :=
    match read this_map key with
    | Some v => write promisedStateIterationMap key v
    | None => promisedStateIterationMap (* not reached either *)
    end in
  (st, this_map, promisedStateIterationMap).

(** The synchronous part of [loadState].  [promisedState] is given by its
    keys in enumeration order; the promises enter through their
    settlement, below.  The second component is the local
    [promisedStateIterationMap], which the callbacks of this call close
    over. *)
Definition loadState (promisedState : list jsstring) (c : component)
    : component * gmap jsstring iteration :=
  let this_map := default ∅ (this_promisedStateIterationMap c) in
  let '(st, this_map, promisedStateIterationMap) :=
    foldl (fun acc key => loadState_body key acc) (∅, this_map, ∅)
      promisedState in
  ({| state := setState st (state c);
      this_promisedStateIterationMap := Some this_map |},
   promisedStateIterationMap).

(** [this.__promisedStateIterationMap[key]]; the map is an object by the
    time a callback reads it. *)
Definition currentIteration (key : jsstring) (c : component)
    : option iteration :=
  read (default ∅ (this_promisedStateIterationMap c)) key.

(** [setLoaded] of the call whose iteration map is
    [promisedStateIterationMap]. *)
Definition setLoaded (promisedStateIterationMap : gmap jsstring iteration)
    (key : jsstring) (result err : jsval) (c : component) : component :=
  if decide (read promisedStateIterationMap key = currentIteration key c)
  then
    let st : gmap jsstring jsval := ∅ in
    let st := <[key ++ js "Loaded" := JBool true]> st in
    let st := <[key ++ js "Error" := err]> st in
    let st := <[key := result]> st in
    {| state := setState st (state c);
       this_promisedStateIterationMap := this_promisedStateIterationMap c |}
  else c.

(** The two callbacks given to [then] for [key]. *)
Definition onFulfilled (promisedStateIterationMap : gmap jsstring iteration)
    (key : jsstring) (result : jsval) (c : component)
    : component * JS.result jsval :=
  (setLoaded promisedStateIterationMap key result JUndefined c,
   Ok JUndefined).

Definition onRejected (promisedStateIterationMap : gmap jsstring iteration)
    (key : jsstring) (err : jsval) (c : component)
    : component * JS.result jsval :=
  (* the arguments of debug(...) are evaluated first, err.stack last *)
  match get_property err "stack" with
  | Throw e => (c, Throw e)
  | Ok _ =>
      (setLoaded promisedStateIterationMap key JUndefined
         (js_or err (new_Error "Unknown Error")) c,
       Ok JUndefined)
  end.

(** The promise that [then] returns is fulfilled with what the callback
    returns and rejected with what it throws. *)
Definition then_outcome (r : JS.result jsval) : outcome :=
  match r with
  | Ok v => Fulfilled v
  | Throw e => Rejected (exn_value e)
  end.

(** The promise of [key] settles with [o]: the component afterwards and
    the outcome of [Promise.resolve(promise).then(...)]. *)
Definition settle (promisedStateIterationMap : gmap jsstring iteration)
    (key : jsstring) (o : outcome) (c : component) : component * outcome :=
  let '(c', r) :=
    match o with
    | Fulfilled result => onFulfilled promisedStateIterationMap key result c
    | Rejected err => onRejected promisedStateIterationMap key err c
    end in
  (c', then_outcome r).

(** [Promise.all] of promises given in the order they settle: rejected
    with the first rejection, fulfilled once all are. *)
Fixpoint Promise_all (os : list outcome) : outcome :=
  match os with
  | [] => Fulfilled (JArr [])
  | Rejected e :: _ => Rejected e
  | Fulfilled v :: os' =>
      match Promise_all os' with
      | Fulfilled (JArr vs) => Fulfilled (JArr (v :: vs))
      | o => o
      end
  end.

(** [.then(function() { return undefined; })]. *)
Definition then_undefined (o : outcome) : outcome :=
  match o with
  | Fulfilled _ => Fulfilled JUndefined
  | Rejected e => Rejected e
  end.

(** All promises of one call settle, in the order of [schedule]. *)
Fixpoint settle_all (promisedStateIterationMap : gmap jsstring iteration)
    (schedule : list (jsstring * outcome)) (c : component)
    : component * list outcome :=
  match schedule with
  | [] => (c, [])
  | (key, o) :: rest =>
      let '(c1, d) := settle promisedStateIterationMap key o c in
      let '(c2, ds) := settle_all promisedStateIterationMap rest c1 in
      (c2, d :: ds)
  end.

(** A whole call of [loadState] whose promises settle as the schedule
    says: the component at the end and the outcome of the promise that
    [loadState] returned. *)
Definition loadState_settled (schedule : list (jsstring * outcome))
    (c : component) : component * outcome :=
  let '(c1, promisedStateIterationMap) := loadState (schedule.*1) c in
  let '(c2, ds) := settle_all promisedStateIterationMap schedule c1 in
  (c2, then_undefined (Promise_all ds)).

(** What can happen to a component: a call of [loadState], or a promise
    of some earlier call settling. *)
Inductive event :=
| EvLoadState (promisedState : list jsstring)
| EvSettle (promisedStateIterationMap : gmap jsstring iteration)
    (key : jsstring) (o : outcome).

Definition step (c : component) (e : event) : component :=
  match e with
  | EvLoadState promisedState => (loadState promisedState c).1
  | EvSettle m key o => (settle m key o c).1
  end.

Definition run (c : component) (es : list event) : component :=
  foldl step c es.

(** The three state fields of a property. *)
Definition Loaded_of (key : jsstring) (c : component) : option jsval :=
  state c !! (key ++ js "Loaded").
Definition Error_of (key : jsstring) (c : component) : option jsval :=
  state c !! (key ++ js "Error").
Definition value_of (key : jsstring) (c : component) : option jsval :=
  state c !! key.

(** What [renderWaitFor] returns when it does not return [undefined]:
    the spinner of [renderSpinner], or the element of [renderError] with
    the [message] it shows. *)
Inductive element :=
| SpinnerElement
| ErrorElement (message : jsval).

(** [this.state[k]]. *)
Definition state_get (k : jsstring) (c : component) : jsval :=
  default JUndefined (state c !! k).

(** [err.message] of a truthy value: error objects carry one, the other
    values modelled here do not. *)
Definition message_of (err : jsval) : jsval :=
  match err with
  | JErr _ message => JStr message
  | _ => JUndefined
  end.

Definition renderError (err : jsval) : element :=
  ErrorElement (message_of err).

(** [renderWaitFor(property)]; [None] is [undefined]. *)
Definition renderWaitFor (property : jsstring) (c : component)
    : option element :=
  if truthy (state_get (property ++ js "Loaded") c) then
    if truthy (state_get (property ++ js "Error") c)
    then Some (renderError (state_get (property ++ js "Error") c))
    else None
  else Some SpinnerElement.

End TaskClusterMixin.

(** ** The subscription manager, [createWebListenerMixin] *)

Module WebListenerMixin.

(** A [taskcluster.WebListener], seen through the calls made on it: the
    events a handler was registered for, the bindings passed to [bind],
    whether [resume] and [close] were called.  None of these calls throws;
    [bind], [resume] and [close] return promises that settle later. *)
Record WebListener := {
  handlers : list jsstring;
  bound : list jsval;
  resumed : bool;
  closed : bool
}.

Definition new_WebListener : WebListener :=
  {| handlers := []; bound := []; resumed := false; closed := false |}.

(** [this.state], [this.__listener] ([None] for [null] and [undefined])
    and every [WebListener] constructed so far; a listener is referred to
    by its position in [listeners]. *)
Record component := {
  state : gmap jsstring jsval;
  this_listener : option nat;
  listeners : list WebListener
}.

Definition initial : component :=
  {| state := ∅; this_listener := None; listeners := [] |}.

Definition with_state (f : gmap jsstring jsval -> gmap jsstring jsval)
    (c : component) : component :=
  {| state := f (state c);
     this_listener := this_listener c;
     listeners := listeners c |}.

Definition with_listener (l : nat) (f : WebListener -> WebListener)
    (c : component) : component :=
  {| state := state c;
     this_listener := this_listener c;
     listeners := alter f l (listeners c) |}.

Definition listener_on (event : string) (w : WebListener) : WebListener :=
  {| handlers := handlers w ++ [js event]; bound := bound w;
     resumed := resumed w; closed := closed w |}.

Definition listener_bind (binding : jsval) (w : WebListener) : WebListener :=
  {| handlers := handlers w; bound := bound w ++ [binding];
     resumed := resumed w; closed := closed w |}.

Definition listener_resume (w : WebListener) : WebListener :=
  {| handlers := handlers w; bound := bound w;
     resumed := true; closed := closed w |}.

Definition listener_close (w : WebListener) : WebListener :=
  {| handlers := handlers w; bound := bound w;
     resumed := resumed w; closed := true |}.

(** The promises the two methods return. *)
Inductive promise :=
| Resolved (v : jsval)
    (* Promise.resolve(v) *)
| Starting (l : nat)
    (* Promise.all(bound.concat([resume()])).then(onListening, onFailure) *)
| Binding (l : nat)
    (* Promise.all(bindings.map(bind)).then(onListening, onFailure) *)
| Closing (l : nat).
    (* what this.__listener.close() returned *)

(** [{listening: ..., listeningError: undefined}]. *)
Definition listening_state (v : jsval) : gmap jsstring jsval :=
  <[js "listeningError" := JUndefined]> (<[js "listening" := v]> ∅).

(** [bindings.length]: arrays and strings have one, the other values
    modelled here do not. *)
Definition length_of (v : jsval) : jsval :=
  match v with
  | JArr items => JNum (Z.of_nat (length items))
  | JStr s => JNum (Z.of_nat (length s))
  | _ => JUndefined
  end.

(** [x === 0]. *)
Definition is_zero (v : jsval) : bool :=
  match v with
  | JNum z => (z =? 0)%Z
  | _ => false
  end.

Definition not_a_function : exn :=
  TypeError (js "bindings.map is not a function").

Definition stopListening (c : component) : component * promise :=
  let c := with_state (setState (<[js "listening" := JBool false]> ∅)) c in
  match this_listener c with
  | Some l =>
      let c := with_listener l listener_close c in
      ({| state := state c; this_listener := None;
          listeners := listeners c |},
       Closing l)
  | None => (c, Resolved JUndefined)
  end.

Definition startListening (bindings : jsval) (c : component)
    : component * result promise :=
  if negb (truthy bindings) || is_zero (length_of bindings) then
    (c, Ok (Resolved JUndefined))
  else
    match this_listener c with
    | None =>
        let l := length (listeners c) in
        let c := {| state := state c; this_listener := Some l;
                    listeners := listeners c ++ [new_WebListener] |} in
        let c := with_listener l (listener_on "message") c in
        let c := with_listener l (listener_on "error") c in
        match bindings with
        | JArr items =>
            let c :=
              foldl (fun c b => with_listener l (listener_bind b) c) c
                items in
            let c := with_state (setState (listening_state JNull)) c in
            let c := with_listener l listener_resume c in
            (c, Ok (Starting l))
        | _ => (c, Throw not_a_function)
        end
    | Some l =>
        let c := with_state (setState (listening_state JNull)) c in
        match bindings with
        | JArr items =>
            let c :=
              foldl (fun c b => with_listener l (listener_bind b) c) c
                items in
            (c, Ok (Binding l))
        | _ => (c, Throw not_a_function)
        end
    end.

(** The callbacks of the promises [Starting] and [Binding]. *)
Definition onListening (c : component) : component :=
  with_state (setState (listening_state (JBool true))) c.

Definition onFailure (err : jsval) (c : component) : component * promise :=
  let err := if truthy err then err else new_Error "Unknown error" in
  let c := with_state (setState (<[js "listeningError" := err]> ∅)) c in
  stopListening c.

(** [componentDidMount] for the configured [options.bindings]. *)
Definition componentDidMount (options_bindings : list jsval)
    (c : component) : component * result unit :=
  let c := {| state := state c; this_listener := None;
              listeners := listeners c |} in
  if (0 <? length options_bindings)%nat then
    match startListening (JNum (Z.of_nat (length options_bindings))) c with
    | (c, Ok _) => (c, Ok tt)
    | (c, Throw e) => (c, Throw e)
    end
  else (c, Ok tt).

Definition the_listener (c : component) : option WebListener :=
  this_listener c ≫= (fun l => listeners c !! l).

(** The handler registered for the [error] event of the listener. *)
Definition onError (err : jsval) (c : component) : component :=
  let err := if truthy err then err else new_Error "Unknown error" in
  let c := with_state (setState (<[js "listeningError" := err]> ∅)) c in
  (stopListening c).1.

Definition componentWillUnmount (c : component) : component :=
  (stopListening c).1.

(** What happens to a mounted component: calls of the two methods, the
    callbacks of the promises they returned, the [error] event, and the
    unmount. *)
Inductive event :=
| EvStartListening (bindings : jsval)
| EvStopListening
| EvListening
| EvFailure (err : jsval)
| EvError (err : jsval)
| EvUnmount.

Definition step (c : component) (e : event) : component :=
  match e with
  | EvStartListening bindings => (startListening bindings c).1
  | EvStopListening => (stopListening c).1
  | EvListening => onListening c
  | EvFailure err => (onFailure err c).1
  | EvError err => onError err c
  | EvUnmount => componentWillUnmount c
  end.

Definition run (c : component) (es : list event) : component :=
  foldl step c es.

End WebListenerMixin.

(** ** The URL fragment synchronizer, [createLocationHashMixin] *)

Module LocationHashMixin.

Definition hexval (c : N) : option N :=
  if (ch "0" <=? c) && (c <=? ch "9") then Some (c - ch "0")
  else if (ch "A" <=? c) && (c <=? ch "F") then Some (c - ch "A" + 10)
  else if (ch "a" <=? c) && (c <=? ch "f") then Some (c - ch "a" + 10)
  else None.

Definition hexbyte (h1 h2 : N) : option N :=
  a ← hexval h1; b ← hexval h2; Some (16 * a + b).

(** The UTF-16 code units of a code point. *)
Definition utf16 (v : N) : jsstring :=
  if v <? 0x10000 then [v]
  else [0xD800 + (v - 0x10000) / 0x400; 0xDC00 + (v - 0x10000) mod 0x400].

Definition valid_code_point (v min : N) : bool :=
  (min <=? v) && (v <=? 0x10FFFF) && negb ((0xD800 <=? v) && (v <=? 0xDFFF)).

(** [decodeURIComponent], [None] where it throws a [URIError].  [pending]
    is the UTF-8 sequence being read: the number of continuation bytes
    still expected, the bits read so far and the least code point that a
    sequence of this length may encode. *)
Fixpoint decode_go (pending : option (nat * N * N)) (s : jsstring)
    : option jsstring :=
  match s with
  | [] => match pending with None => Some [] | Some _ => None end
  | c :: rest =>
      if c =? ch "%" then
        match rest with
        | h1 :: h2 :: rest' =>
            match hexbyte h1 h2 with
            | None => None
            | Some b =>
                match pending with
                | None =>
                    if b <? 0x80 then cons b <$> decode_go None rest'
                    else if b <? 0xC0 then None
                    else if b <? 0xE0 then
                      decode_go (Some (1%nat, N.land b 0x1F, 0x80)) rest'
                    else if b <? 0xF0 then
                      decode_go (Some (2%nat, N.land b 0x0F, 0x800)) rest'
                    else if b <? 0xF8 then
                      decode_go (Some (3%nat, N.land b 0x07, 0x10000)) rest'
                    else None
                | Some (k, acc, min) =>
                    if N.land b 0xC0 =? 0x80 then
                      let acc := 64 * acc + N.land b 0x3F in
                      match k with
                      | 1%nat =>
                          if valid_code_point acc min
                          then app (utf16 acc) <$> decode_go None rest'
                          else None
                      | _ => decode_go (Some (Nat.pred k, acc, min)) rest'
                      end
                    else None
                end
            end
        | _ => None
        end
      else
        match pending with
        | None => cons c <$> decode_go None rest
        | Some _ => None
        end
  end.

Definition decodeURIComponent (s : jsstring) : result jsstring :=
  match decode_go None s with
  | Some d => Ok d
  | None => Throw URIError
  end.

(** [s.split(sep)] and [a.join(sep)] for a one-character separator. *)
Fixpoint split (sep : N) (s : jsstring) : list jsstring :=
  match s with
  | [] => [[]]
  | c :: s' =>
      if c =? sep then [] :: split sep s'
      else
        match split sep s' with
        | w :: ws => (c :: w) :: ws
        | [] => [[c]]
        end
  end.

Definition join (sep : N) (a : list jsstring) : jsstring :=
  match a with
  | [] => []
  | w :: ws => w ++ flat_map (fun x => sep :: x) ws
  end.

(** [a[i] = v]: past the end the array grows, and the elements in between
    are holes.  [join] writes a hole as the empty string and [a[i] || '']
    reads it as the empty string, so a hole is kept as one. *)
Definition array_set (i : nat) (v : jsstring) (a : list jsstring)
    : list jsstring :=
  if (i <? length a)%nat then <[i := v]> a
  else a ++ replicate (i - length a) [] ++ [v].

(** [a[i] || ''] on an array of strings. *)
Definition fragment_at (i : nat) (a : list jsstring) : jsstring :=
  default [] (a !! i).

(** What the mixin reads and writes: [window.location.hash] as its getter
    returns it, [this.props.hashIndex], [this.__previousHashFragment]
    ([None] for [undefined]) and the arguments [options.load] was called
    with so far, the latest last. *)
Record component := {
  location_hash : jsstring;
  hashIndex : nat;
  this_previousHashFragment : option jsstring;
  load_calls : list jsstring
}.

(** Assigning [window.location.hash]: a leading [#] is dropped, and the
    getter returns [#] and the fragment, or the empty string when the
    fragment is empty.  What is assigned below holds only characters that
    the browser stores as they are. *)
Definition set_location_hash (v : jsstring) (c : component) : component :=
  let fragment := match v with
                  | x :: r => if x =? ch "#" then r else v
                  | [] => []
                  end in
  {| location_hash := match fragment with
                      | [] => []
                      | _ => ch "#" :: fragment
                      end;
     hashIndex := hashIndex c;
     this_previousHashFragment := this_previousHashFragment c;
     load_calls := load_calls c |}.

(** [decodeURIComponent(window.location.hash.substr(1)).split('/')]. *)
Definition fragments_of (c : component) : result (list jsstring) :=
  bind (decodeURIComponent (tail (location_hash c))) (fun hash =>
  Ok (split (ch "/") hash)).

Definition not_a_string : exn :=
  TypeError (js "string.replace is not a function").

(** [componentDidUpdate], where [saved] is what [options.save.call(this)]
    returned. *)
Definition componentDidUpdate (saved : jsval) (c : component)
    : result component :=
  bind (fragments_of c) (fun fragments =>
  let oldFragment := fragment_at (hashIndex c) fragments in
  bind (match js_or saved (JStr []) with
        | JStr s => escapeChar (js "/") s
        | _ => Throw not_a_string
        end) (fun newFragment =>
  if decide (oldFragment = newFragment) then Ok c
  else
    let fragments := array_set (hashIndex c) newFragment fragments in
    Ok (set_location_hash
          (ch "#" :: encodeFragment (join (ch "/") fragments)) c))).

Definition handleHashChange (c : component) : result component :=
  bind (fragments_of c) (fun fragments =>
  let fragment := fragment_at (hashIndex c) fragments in
  if decide (this_previousHashFragment c = Some fragment) then Ok c
  else
    bind (unescapeChar (js "/") fragment) (fun data =>
    Ok {| location_hash := location_hash c;
          hashIndex := hashIndex c;
          this_previousHashFragment := Some fragment;
          load_calls := load_calls c ++ [data] |})).

Definition componentWillMount (c : component) : result component :=
  handleHashChange
    {| location_hash := location_hash c;
       hashIndex := hashIndex c;
       this_previousHashFragment := None;
       load_calls := load_calls c |}.




End LocationHashMixin.

(** * Properties *)

(** ** Escaping and unescaping *)

Module StringsSpec.

Example escapeChar_ex :
  escapeChar (js "/") (js "a/b%2/f") = Ok (js "a%2fb%2%2ff").
Proof. vm_compute. reflexivity. Qed.

Example unescapeChar_ex :
  unescapeChar (js "/") (js "a%2fb%2%2ff") = Ok (js "a/b%2/f").
Proof. vm_compute. reflexivity. Qed.

Example toString16_ex :
  toString16 47 = js "2f" /\ toString16 9 = js "9" /\ toString16 0 = js "0"
  /\ toString16 233 = js "e9" /\ toString16 0x4e2d = js "4e2d".
Proof. vm_compute. repeat split. Qed.

Example encodeFragment_ex :
  encodeFragment (js "a b/c%2fd?x=1#y") = js "a%20b/c%252fd?x=1%23y".
Proof. vm_compute. reflexivity. Qed.

(** A string that already holds the escape sequence does not come back. *)
Example unescapeChar_not_injective :
  bind (escapeChar (js "/") (js "%2f")) (unescapeChar (js "/"))
  = Ok (js "/").
Proof. vm_compute. reflexivity. Qed.

Lemma backslash_special : regexp_special (ch "\") = true.
Proof. reflexivity. Qed.

(** The class of [escapeForRegularExpression] holds every syntax
    character, and each of its characters is an identity escape after a
    backslash. *)
Lemma syntax_character_special (c : N) :
  syntax_character c = true -> regexp_special c = true.
Proof.
  unfold syntax_character. cbn [existsb]. rewrite !orb_true_iff.
  intros H. repeat destruct H as [H|H]; try discriminate;
    apply N.eqb_eq in H; subst c; reflexivity.
Qed.

Lemma special_identity_escape (c : N) :
  regexp_special c = true -> identity_escape c = true.
Proof.
  unfold regexp_special. cbn [existsb]. rewrite !orb_true_iff.
  intros H. repeat destruct H as [H|H]; try discriminate;
    apply N.eqb_eq in H; subst c; reflexivity.
Qed.

(** The pattern built from [escapeForRegularExpression s] matches [s]
    literally, whatever [s] is. *)
Lemma RegExp_escapeForRegularExpression (s : jsstring) :
  RegExp (escapeForRegularExpression s) = Some s.
Proof.
  induction s as [|c s IH]; [reflexivity|].
  unfold escapeForRegularExpression in *. cbn [flat_map].
  destruct (regexp_special c) eqn:Hc.
  - cbn [app RegExp].
    rewrite N.eqb_refl, (special_identity_escape c Hc), IH. reflexivity.
  - cbn [app RegExp].
    destruct (c =? ch "\") eqn:Hb.
    + apply N.eqb_eq in Hb. subst c. rewrite backslash_special in Hc.
      discriminate.
    + destruct (syntax_character c) eqn:Hs.
      * rewrite (syntax_character_special c Hs) in Hc. discriminate.
      * rewrite IH. reflexivity.
Qed.

(** Each half is needed: a class without the dot, or one with a letter in
    it, gives patterns that are not the string taken literally. *)
Example RegExp_needs_the_escapes :
  RegExp (js "a.b") = None /\ RegExp (js "a\.b") = Some (js "a.b")
  /\ RegExp (js "\d") = None /\ RegExp (js "a-b/c") = Some (js "a-b/c")
  /\ RegExp (js "a\-b\/c") = Some (js "a-b/c") /\ RegExp (js "a\") = None.
Proof. vm_compute. repeat split. Qed.

(** [includes] is containment as a contiguous substring. *)
Lemma prefixb_spec (p s : jsstring) :
  prefixb p s = true <-> exists r, s = p ++ r.
Proof.
  revert s. induction p as [|a p IH]; intros s.
  - split; [intros _; exists s; reflexivity | reflexivity].
  - destruct s as [|b s]; cbn [prefixb].
    + split; [discriminate | intros [r Hr]; discriminate].
    + rewrite andb_true_iff, N.eqb_eq, IH. split.
      * intros [-> [r ->]]. exists r. reflexivity.
      * intros [r Hr]. injection Hr as -> ->. split; [reflexivity|].
        exists r. reflexivity.
Qed.

Lemma includes_spec (needle s : jsstring) :
  includes needle s = true <-> exists l r, s = l ++ needle ++ r.
Proof.
  induction s as [|c s IH].
  - cbn [includes]. rewrite orb_false_r, prefixb_spec. split.
    + intros [r Hr]. exists [], r. exact Hr.
    + intros [l [r Hr]]. destruct l; [exists r; exact Hr|discriminate].
  - cbn [includes]. rewrite orb_true_iff, prefixb_spec, IH. split.
    + intros [[r Hr] | [l [r Hr]]].
      * exists [], r. exact Hr.
      * exists (c :: l), r. rewrite Hr. reflexivity.
    + intros [l [r Hr]]. destruct l as [|x l].
      * left. exists r. exact Hr.
      * right. injection Hr as -> ->. exists l, r. reflexivity.
Qed.

(** [escapeChar('/', s)] writes [%2f] for every slash. *)
Definition escape_slash (s : jsstring) : jsstring :=
  flat_map (fun c => if c =? 47 then [37; 50; 102] else [c]) s.

Lemma escapeChar_slash (s : jsstring) :
  escapeChar (js "/") s = Ok (escape_slash s).
Proof.
  unfold escapeChar.
  change (assert_length_1 (js "/")) with (Ok tt).
  change (RegExp (escapeForRegularExpression (js "/"))) with (Some [47]).
  cbn [bind replace]. f_equal.
  induction s as [|c s IH]; [reflexivity|].
  cbn [replace_go prefixb length Nat.sub escape_slash flat_map].
  fold (escape_slash s). rewrite andb_true_r, N.eqb_sym.
  destruct (c =? 47); rewrite IH; reflexivity.
Qed.

Lemma unescapeChar_slash (s : jsstring) :
  unescapeChar (js "/") s
  = Ok (replace_go [37; 50; 102] (fun _ => [47]) 0 s).
Proof. reflexivity. Qed.

Lemma escape_slash_no_slash (s : jsstring) : 47 ∉ escape_slash s.
Proof.
  induction s as [|c s IH]; [apply not_elem_of_nil|].
  unfold escape_slash in *. cbn [flat_map].
  destruct (c =? 47) eqn:Hc.
  - cbn [app]. rewrite !not_elem_of_cons. repeat split; try discriminate.
    exact IH.
  - cbn [app]. rewrite not_elem_of_cons. split; [|exact IH].
    intros <-. discriminate.
Qed.

(** A match of [%2f] in the escaped string that starts at a character
    copied from [s] lies in [s] already. *)
Lemma prefixb_escape_slash (c : N) (s : jsstring) :
  (c =? 47) = false ->
  prefixb [37; 50; 102] (c :: escape_slash s) = true ->
  prefixb [37; 50; 102] (c :: s) = true.
Proof.
  intros Hc. destruct s as [|x [|y s]]; cbn [escape_slash flat_map].
  - cbn. rewrite andb_false_r. discriminate.
  - destruct (x =? 47) eqn:Hx; cbn; rewrite ?andb_false_r;
      try discriminate; intros H; exact H.
  - destruct (x =? 47) eqn:Hx.
    + cbn. rewrite andb_false_r. discriminate.
    + destruct (y =? 47) eqn:Hy.
      * cbn. rewrite !andb_false_r. discriminate.
      * cbn. intros H; exact H.
Qed.

Lemma unescape_escape_slash (s : jsstring) :
  includes [37; 50; 102] s = false ->
  replace_go [37; 50; 102] (fun _ => [47]) 0 (escape_slash s) = s.
Proof.
  induction s as [|c s IH]; [reflexivity|].
  cbn [includes]. rewrite orb_false_iff. intros [Hp Hs].
  specialize (IH Hs).
  unfold escape_slash in *. cbn [flat_map].
  destruct (c =? 47) eqn:Hc.
  - apply N.eqb_eq in Hc. subst c.
    cbn [app replace_go prefixb length Nat.sub].
    change (37 =? 37) with true. change (50 =? 50) with true.
    change (102 =? 102) with true. cbn [andb].
    rewrite IH. reflexivity.
  - cbn [app]. cbn [replace_go].
    destruct (prefixb [37; 50; 102] (c :: flat_map _ s)) eqn:Hq.
    + apply prefixb_escape_slash in Hq; [congruence | exact Hc].
    + rewrite IH. reflexivity.
Qed.

(** C2: for every string [s] in which the escape sequence [%2f] of the
    slash does not occur, unescaping the slash in the escaped string gives
    [s] back: [unescapeChar('/', escapeChar('/', s)) = s]. *)
Theorem C2_unescapeChar_escapeChar (s : jsstring) :
  includes (js "%2f") s = false ->
  bind (escapeChar (js "/") s) (unescapeChar (js "/")) = Ok s.
Proof.
  intros H. rewrite escapeChar_slash. cbn [bind].
  rewrite unescapeChar_slash. f_equal.
  apply unescape_escape_slash. exact H.
Qed.

Lemma C2_witness :
  includes (js "%2f") (js "x/y/%2F") = false
  /\ bind (escapeChar (js "/") (js "x/y/%2F")) (unescapeChar (js "/"))
     = Ok (js "x/y/%2F").
Proof.
  split; [reflexivity|].
  apply (C2_unescapeChar_escapeChar (js "x/y/%2F")). reflexivity.
Defined.

End StringsSpec.

(** ** The stale-response guard of [loadState] *)

Module LoaderSpec.
Import TaskClusterMixin.

(** How far an iteration value has got: the number itself, or the number
    of ['1'] appended to the text of an inherited property. *)
Definition measure (v : option iteration) : N :=
  match v with
  | Some (Count n) => n
  | Some (Inherited _ ones) => N.of_nat ones
  | Some Prototype | None => 0
  end.

(** The iteration count of [key], zero while there is none. *)
Definition counter (key : jsstring) (c : component) : N :=
  measure (currentIteration key c).

Lemma app_ne_self (k s : jsstring) : s ≠ [] -> k ++ s ≠ k.
Proof.
  intros Hs H. apply (f_equal length) in H. rewrite length_app in H.
  destruct s; [congruence | cbn in H; lia].
Qed.

Lemma Loaded_ne_key (k : jsstring) : k ++ js "Loaded" ≠ k.
Proof. apply app_ne_self. discriminate. Qed.

Lemma Error_ne_key (k : jsstring) : k ++ js "Error" ≠ k.
Proof. apply app_ne_self. discriminate. Qed.

Lemma Loaded_ne_Error (k : jsstring) : k ++ js "Loaded" ≠ k ++ js "Error".
Proof. intros H. apply app_inv_head in H. discriminate. Qed.

(** *** Reading and writing a plain object *)

Lemma read_proto m : read m (js "__proto__") = Some Prototype.
Proof. unfold read. rewrite decide_True by reflexivity. reflexivity. Qed.

Lemma write_proto m v : write m (js "__proto__") v = m.
Proof. unfold write. rewrite decide_True by reflexivity. reflexivity. Qed.

Lemma read_write_eq m k v :
  k ≠ js "__proto__" -> read (write m k v) k = Some v.
Proof.
  intros Hk. unfold read, write. rewrite !decide_False by exact Hk.
  rewrite lookup_insert_eq. reflexivity.
Qed.

Lemma read_write_ne m k j v : k ≠ j -> read (write m k v) j = read m j.
Proof.
  intros Hj. unfold read, write.
  destruct (decide (k = js "__proto__")); [reflexivity|].
  rewrite lookup_insert_ne by exact Hj. reflexivity.
Qed.

Lemma measure_plus_one v : measure (Some v) <= measure (Some (plus_one v)).
Proof.
  destruct v as [n|name ones|]; cbn [plus_one measure]; try lia.
  destruct (n <? 2 ^ 53); lia.
Qed.

Lemma measure_plus_one_lt v :
  measure (Some v) < 2 ^ 53 -> measure (Some v) < measure (Some (plus_one v)).
Proof.
  destruct v as [n|name ones|]; cbn [plus_one measure]; intros H; try lia.
  rewrite (proj2 (N.ltb_lt n (2 ^ 53)) H). lia.
Qed.

(** *** One turn of the loop *)

Section Body.
Variables (k : jsstring) (st : gmap jsstring jsval).
Variables (m cap : gmap jsstring iteration).

(** The read of [k] after the line that makes sure there is an
    iteration. *)
Definition ensured : iteration := default (Count 0) (read m k).

Lemma body_this_proto :
  k = js "__proto__" -> (loadState_body k (st, m, cap)).1.2 = m.
Proof.
  intros ->. cbn [loadState_body fst snd].
  repeat (first [rewrite read_proto | rewrite write_proto]; cbv beta iota).
  reflexivity.
Qed.

Lemma body_captured_proto :
  k = js "__proto__" -> (loadState_body k (st, m, cap)).2 = cap.
Proof.
  intros ->. cbn [loadState_body fst snd].
  repeat (first [rewrite read_proto | rewrite write_proto]; cbv beta iota).
  reflexivity.
Qed.

Lemma body_this :
  k ≠ js "__proto__" ->
  (loadState_body k (st, m, cap)).1.2
  = write (match read m k with
           | None => write m k (Count 0)
           | Some _ => m
           end) k (plus_one ensured).
Proof.
  intros Hk. cbn [loadState_body fst snd]. unfold ensured.
  destruct (read m k) as [v|] eqn:E; cbn [default].
  - rewrite E. reflexivity.
  - rewrite (read_write_eq m k (Count 0) Hk). reflexivity.
Qed.

Lemma body_this_eq :
  k ≠ js "__proto__" ->
  read (loadState_body k (st, m, cap)).1.2 k = Some (plus_one ensured).
Proof. intros Hk. rewrite (body_this Hk). apply read_write_eq, Hk. Qed.

Lemma body_this_ne (j : jsstring) :
  k ≠ j -> read (loadState_body k (st, m, cap)).1.2 j = read m j.
Proof.
  intros Hj. destruct (decide (k = js "__proto__")) as [Hk|Hk].
  - rewrite (body_this_proto Hk). reflexivity.
  - rewrite (body_this Hk), read_write_ne by exact Hj.
    destruct (read m k); [reflexivity | apply read_write_ne, Hj].
Qed.

Lemma body_captured :
  k ≠ js "__proto__" ->
  (loadState_body k (st, m, cap)).2 = write cap k (plus_one ensured).
Proof.
  intros Hk. pose proof (body_this_eq Hk) as H.
  cbn [loadState_body fst snd] in H. cbn [loadState_body snd].
  rewrite H. reflexivity.
Qed.

Lemma body_captured_ne (j : jsstring) :
  k ≠ j -> read (loadState_body k (st, m, cap)).2 j = read cap j.
Proof.
  intros Hj. destruct (decide (k = js "__proto__")) as [Hk|Hk].
  - rewrite (body_captured_proto Hk). reflexivity.
  - rewrite (body_captured Hk). apply read_write_ne, Hj.
Qed.

(** The call remembers what the component holds for the key. *)
Lemma body_same :
  read (loadState_body k (st, m, cap)).2 k
  = read (loadState_body k (st, m, cap)).1.2 k.
Proof.
  destruct (decide (k = js "__proto__")) as [Hk|Hk].
  - rewrite (body_captured_proto Hk), (body_this_proto Hk).
    subst k. rewrite !read_proto. reflexivity.
  - rewrite (body_captured Hk), (body_this_eq Hk).
    apply read_write_eq, Hk.
Qed.

Lemma measure_ensured : measure (Some ensured) = measure (read m k).
Proof. unfold ensured. destruct (read m k); reflexivity. Qed.

Lemma body_grows :
  measure (read m k) <= measure (read (loadState_body k (st, m, cap)).1.2 k).
Proof.
  destruct (decide (k = js "__proto__")) as [Hk|Hk].
  - rewrite (body_this_proto Hk). reflexivity.
  - rewrite (body_this_eq Hk), <- measure_ensured. apply measure_plus_one.
Qed.

Lemma body_strict :
  k ≠ js "__proto__" -> measure (read m k) < 2 ^ 53 ->
  measure (read m k) < measure (read (loadState_body k (st, m, cap)).1.2 k).
Proof.
  intros Hk Hlt. rewrite (body_this_eq Hk), <- measure_ensured.
  apply measure_plus_one_lt. rewrite measure_ensured. exact Hlt.
Qed.
End Body.

(** *** The whole loop *)

Definition loop (ks : list jsstring) (m : gmap jsstring iteration) :=
  foldl (fun acc key => loadState_body key acc)
    (∅ : gmap jsstring jsval, m, ∅ : gmap jsstring iteration) ks.

Lemma loop_snoc ks k m :
  loop (ks ++ [k]) m = loadState_body k (loop ks m).
Proof. unfold loop. rewrite foldl_app. reflexivity. Qed.

Lemma loop_not_registered ks m j :
  j ∉ ks -> read (loop ks m).1.2 j = read m j.
Proof.
  induction ks as [|k ks IH] using rev_ind; [reflexivity|].
  intros Hj. rewrite loop_snoc.
  rewrite not_elem_of_app, not_elem_of_cons in Hj.
  destruct Hj as [Hks [Hk _]].
  destruct (loop ks m) as [[st m'] cap].
  rewrite body_this_ne by congruence. apply IH. exact Hks.
Qed.

Lemma loop_monotone ks m j :
  measure (read m j) <= measure (read (loop ks m).1.2 j).
Proof.
  induction ks as [|k ks IH] using rev_ind; [reflexivity|].
  rewrite loop_snoc. destruct (loop ks m) as [[st m'] cap].
  destruct (decide (k = j)) as [->|Hj].
  - etransitivity; [exact IH | apply body_grows].
  - rewrite body_this_ne by exact Hj. exact IH.
Qed.

(** What a call remembers for a key of its mapping is what the component
    holds for it when the loop is over. *)
Lemma loop_same ks m j :
  j ∈ ks -> read (loop ks m).2 j = read (loop ks m).1.2 j.
Proof.
  induction ks as [|k ks IH] using rev_ind.
  - intros H. apply elem_of_nil in H. destruct H.
  - intros Hj. rewrite loop_snoc.
    destruct (loop ks m) as [[st m'] cap].
    destruct (decide (k = j)) as [->|Hne]; [apply body_same|].
    rewrite body_this_ne, body_captured_ne by exact Hne.
    apply IH. rewrite elem_of_app, list_elem_of_singleton in Hj.
    destruct Hj as [Hj|Hj]; [exact Hj | congruence].
Qed.

Lemma foldl_body_monotone ks st m cap j :
  measure (read m j)
  <= measure
       (read (foldl (fun acc key => loadState_body key acc) (st, m, cap) ks).1.2
          j).
Proof.
  revert st m cap. induction ks as [|k ks IH]; intros st m cap; [reflexivity|].
  cbn [foldl].
  destruct (loadState_body k (st, m, cap)) as [[st' m'] cap'] eqn:E.
  etransitivity; [|apply IH].
  destruct (decide (k = j)) as [->|Hj].
  - pose proof (body_grows j st m cap) as H. rewrite E in H. exact H.
  - pose proof (body_this_ne k st m cap j Hj) as H. rewrite E in H.
    cbn [fst snd] in H. rewrite H. reflexivity.
Qed.

Lemma foldl_body_strict ks st m cap j :
  j ∈ ks -> j ≠ js "__proto__" -> measure (read m j) < 2 ^ 53 ->
  measure (read m j)
  < measure
      (read (foldl (fun acc key => loadState_body key acc) (st, m, cap) ks).1.2
         j).
Proof.
  revert st m cap. induction ks as [|k ks IH]; intros st m cap Hj Hp Hlt.
  - apply elem_of_nil in Hj. destruct Hj.
  - cbn [foldl].
    destruct (loadState_body k (st, m, cap)) as [[st' m'] cap'] eqn:E.
    destruct (decide (k = j)) as [->|Hne].
    + eapply N.lt_le_trans; [|apply foldl_body_monotone].
      pose proof (body_strict j st m cap Hp Hlt) as H. rewrite E in H.
      exact H.
    + pose proof (body_this_ne k st m cap j Hne) as H. rewrite E in H.
      cbn [fst snd] in H. rewrite <- H. apply IH.
      * apply elem_of_cons in Hj as [Hj|Hj]; [congruence | exact Hj].
      * exact Hp.
      * rewrite H. exact Hlt.
Qed.

Lemma loadState_loop ks c :
  loadState ks c
  = ({| state :=
          setState (loop ks (default ∅ (this_promisedStateIterationMap c))).1.1
            (state c);
        this_promisedStateIterationMap :=
          Some (loop ks (default ∅ (this_promisedStateIterationMap c))).1.2 |},
     (loop ks (default ∅ (this_promisedStateIterationMap c))).2).
Proof.
  unfold loadState. fold (loop ks (default ∅ (this_promisedStateIterationMap c))).
  destruct (loop ks _) as [[st m'] cap]. reflexivity.
Qed.

Lemma currentIteration_default j c :
  currentIteration j c
  = read (default ∅ (this_promisedStateIterationMap c)) j.
Proof. reflexivity. Qed.

(** Registering a computation for [P]: the call remembers the iteration
    value that the component now holds for [P], and that value is further
    on than every earlier one, unless [P] is [__proto__] or the count has
    reached 2^53. *)
Lemma loadState_registers ks c P :
  P ∈ ks ->
  read (loadState ks c).2 P = currentIteration P (loadState ks c).1
  /\ (P ≠ js "__proto__" -> counter P c < 2 ^ 53 ->
      counter P c < counter P (loadState ks c).1).
Proof.
  intros HP. rewrite loadState_loop. unfold counter, currentIteration.
  cbn [fst snd this_promisedStateIterationMap default]. split.
  - apply loop_same, HP.
  - intros Hp Hlt. unfold loop. apply foldl_body_strict; assumption.
Qed.

Lemma loadState_not_registers ks c P :
  P ∉ ks -> currentIteration P (loadState ks c).1 = currentIteration P c.
Proof.
  intros HP. rewrite loadState_loop. unfold currentIteration.
  cbn [fst this_promisedStateIterationMap default].
  apply loop_not_registered, HP.
Qed.

Lemma loadState_counter_mono ks c j :
  counter j c <= counter j (loadState ks c).1.
Proof.
  rewrite loadState_loop. unfold counter, currentIteration.
  cbn [fst this_promisedStateIterationMap default].
  apply loop_monotone.
Qed.

(** *** Settlements *)

Lemma setLoaded_iteration cap key r e c :
  this_promisedStateIterationMap (setLoaded cap key r e c)
  = this_promisedStateIterationMap c.
Proof. unfold setLoaded. case_decide; reflexivity. Qed.

Lemma settle_iteration cap key o c :
  this_promisedStateIterationMap (settle cap key o c).1
  = this_promisedStateIterationMap c.
Proof.
  unfold settle, onFulfilled, onRejected.
  destruct o as [v|e]; [|destruct (get_property e "stack")]; cbn [fst];
    try apply setLoaded_iteration; reflexivity.
Qed.

Lemma settle_currentIteration cap key o c j :
  currentIteration j (settle cap key o c).1 = currentIteration j c.
Proof. unfold currentIteration. rewrite settle_iteration. reflexivity. Qed.

Lemma step_counter_mono c e j : counter j c <= counter j (step c e).
Proof.
  destruct e as [ks|cap key o]; cbn [step].
  - apply loadState_counter_mono.
  - unfold counter. rewrite settle_currentIteration. reflexivity.
Qed.

Lemma run_counter_mono es c j : counter j c <= counter j (run c es).
Proof.
  revert c. induction es as [|e es IH]; intros c; [reflexivity|].
  cbn. etransitivity; [apply (step_counter_mono c e j)|apply IH].
Qed.

(** An event that registers a computation for [P]. *)
Definition registers (P : jsstring) (e : event) : Prop :=
  match e with
  | EvLoadState ks => P ∈ ks
  | EvSettle _ _ _ => False
  end.

Lemma run_currentIteration es c P :
  Forall (fun e => ~ registers P e) es ->
  currentIteration P (run c es) = currentIteration P c.
Proof.
  revert c. induction es as [|e es IH]; intros c H; [reflexivity|].
  inversion H as [|? ? He Hes]; subst. cbn. rewrite IH by exact Hes.
  destruct e as [ks|cap key o]; cbn [step].
  - apply loadState_not_registers. exact He.
  - apply settle_currentIteration.
Qed.

Lemma setLoaded_stale cap key r e c :
  measure (read cap key) < counter key c ->
  setLoaded cap key r e c = c.
Proof.
  intros Hlt. unfold setLoaded. case_decide as Heq; [|reflexivity].
  unfold counter in Hlt. rewrite <- Heq in Hlt. lia.
Qed.

Lemma settle_stale cap key o c :
  measure (read cap key) < counter key c ->
  (settle cap key o c).1 = c.
Proof.
  intros Hlt. unfold settle, onFulfilled, onRejected.
  destruct o as [v|e]; [|destruct (get_property e "stack")]; cbn [fst];
    try (apply setLoaded_stale; exact Hlt); reflexivity.
Qed.

Lemma setLoaded_current cap key r e c :
  read cap key = currentIteration key c ->
  let c' := setLoaded cap key r e c in
  Loaded_of key c' = Some (JBool true)
  /\ Error_of key c' = Some e
  /\ value_of key c' = Some r.
Proof.
  intros Heq. unfold setLoaded. rewrite decide_True by exact Heq.
  unfold Loaded_of, Error_of, value_of, setState. cbn.
  repeat split.
  - erewrite lookup_union_Some_l; [reflexivity|].
    rewrite lookup_insert_ne by (symmetry; apply Loaded_ne_key).
    rewrite lookup_insert_ne by (symmetry; apply Loaded_ne_Error).
    apply lookup_insert_eq.
  - erewrite lookup_union_Some_l; [reflexivity|].
    rewrite lookup_insert_ne by (symmetry; apply Error_ne_key).
    apply lookup_insert_eq.
  - erewrite lookup_union_Some_l; [reflexivity|].
    apply lookup_insert_eq.
Qed.

(** *** Superseded and current computations *)

(** Once a newer computation has been registered for [P], the settlement
    of the older one changes nothing of the component, whatever else
    happens in between and however it settles; [P] is not [__proto__], for
    which the guard always passes, and has been registered fewer than 2^53
    times, after which the count stays where it is. *)
Theorem stale_settlement_ignored c0 ks1 es1 ks2 es2 P o :
  P ∈ ks1 -> P ∈ ks2 ->
  P ≠ js "__proto__" ->
  counter P (run (loadState ks1 c0).1 es1) < 2 ^ 53 ->
  let c1 := (loadState ks1 c0).1 in
  let cap1 := (loadState ks1 c0).2 in
  let c2 := run c1 es1 in
  let c3 := (loadState ks2 c2).1 in
  let c4 := run c3 es2 in
  (settle cap1 P o c4).1 = c4.
Proof.
  intros H1 H2 Hp Hlt c1 cap1 c2 c3 c4.
  destruct (loadState_registers ks1 c0 P H1) as [Hcap1 _].
  destruct (loadState_registers ks2 c2 P H2) as [_ Hstrict].
  specialize (Hstrict Hp Hlt).
  apply settle_stale.
  pose proof (run_counter_mono es1 c1 P) as Hm1.
  pose proof (run_counter_mono es2 c3 P) as Hm2.
  fold c2 in Hm1. fold c3 in Hstrict. fold c4 in Hm2.
  fold cap1 c1 in Hcap1. rewrite Hcap1. fold (counter P c1). lia.
Qed.

(** A computation that is still the latest one for [P] when it is
    fulfilled is written to the state. *)
Theorem current_settlement_fulfilled c ks es P v :
  P ∈ ks -> Forall (fun e => ~ registers P e) es ->
  let c' := run (loadState ks c).1 es in
  let c'' := (settle (loadState ks c).2 P (Fulfilled v) c').1 in
  Loaded_of P c'' = Some (JBool true)
  /\ Error_of P c'' = Some JUndefined
  /\ value_of P c'' = Some v.
Proof.
  intros HP Hes c' c''.
  destruct (loadState_registers ks c P HP) as [Hcap _].
  apply setLoaded_current. unfold c'.
  rewrite run_currentIteration by exact Hes. exact Hcap.
Qed.

(** So is one that is rejected with a reason whose [stack] can be read:
    the error stored is the reason, or [new Error("Unknown Error")] when
    the reason is falsy. *)
Theorem current_settlement_rejected c ks es P e :
  P ∈ ks -> Forall (fun e => ~ registers P e) es ->
  e ≠ JUndefined -> e ≠ JNull ->
  let c' := run (loadState ks c).1 es in
  let c'' := (settle (loadState ks c).2 P (Rejected e) c').1 in
  Loaded_of P c'' = Some (JBool true)
  /\ Error_of P c'' = Some (js_or e (new_Error "Unknown Error"))
  /\ value_of P c'' = Some JUndefined.
Proof.
  intros HP Hes Hu Hn c' c''.
  destruct (loadState_registers ks c P HP) as [Hcap _].
  assert (Heq : read (loadState ks c).2 P = currentIteration P c').
  { unfold c'. rewrite run_currentIteration by exact Hes. exact Hcap. }
  unfold c'', settle, onRejected.
  destruct e; try congruence; cbn [get_property fst];
    apply setLoaded_current; exact Heq.
Qed.

Lemma js_or_Error_truthy e :
  truthy (js_or e (new_Error "Unknown Error")) = true.
Proof. unfold js_or. destruct (truthy e) eqn:E; [exact E | reflexivity]. Qed.

(** A rejection with the empty string as its reason is stored as the
    generic error. *)
Example rejected_with_empty_string :
  let c1 := (loadState [js "task"] initial).1 in
  let c2 := (settle (loadState [js "task"] initial).2 (js "task")
               (Rejected (JStr [])) c1).1 in
  Loaded_of (js "task") c2 = Some (JBool true)
  /\ Error_of (js "task") c2 = Some (JErr (js "Error") (js "Unknown Error"))
  /\ value_of (js "task") c2 = Some JUndefined.
Proof.
  apply (current_settlement_rejected initial [js "task"] [] (js "task")
           (JStr []));
    [apply list_elem_of_singleton; reflexivity | constructor
    | discriminate | discriminate].
Qed.

(** *** Rejections without a reason *)

Definition cannot_read : jsval :=
  JErr (js "TypeError") (js "Cannot read property of undefined or null").

(** The rejection callback reads [err.stack] before anything else: for
    [undefined] and [null] that read throws, [setLoaded] is not reached
    and the promise made by [then] is rejected. *)
Lemma settle_rejected_undefined cap key c :
  settle cap key (Rejected JUndefined) c = (c, Rejected cannot_read).
Proof. reflexivity. Qed.

Lemma settle_rejected_null cap key c :
  settle cap key (Rejected JNull) c = (c, Rejected cannot_read).
Proof. reflexivity. Qed.

Definition rejects_without_reason (o : outcome) : bool :=
  match o with
  | Rejected JUndefined | Rejected JNull => true
  | _ => false
  end.

Lemma settle_outcome cap key o c :
  rejects_without_reason o = false ->
  (settle cap key o c).2 = Fulfilled JUndefined.
Proof. destruct o as [v|[]]; try discriminate; reflexivity. Qed.

Lemma Promise_all_fulfilled (ds : list outcome) :
  Forall (fun d => d = Fulfilled JUndefined) ds ->
  Promise_all ds = Fulfilled (JArr (replicate (length ds) JUndefined)).
Proof.
  induction 1 as [|d ds -> _ IH]; [reflexivity|].
  cbn. rewrite IH. reflexivity.
Qed.

Lemma settle_all_outcomes cap schedule c :
  Forall (fun ko => rejects_without_reason ko.2 = false) schedule ->
  Forall (fun d => d = Fulfilled JUndefined) (settle_all cap schedule c).2.
Proof.
  intros H. revert c. induction H as [|[key o] rest Ho _ IH]; intros c.
  - constructor.
  - cbn [settle_all].
    pose proof (settle_outcome cap key o c Ho) as Hd.
    destruct (settle cap key o c) as [c1 d]. cbn in Hd. subst d.
    specialize (IH c1). destruct (settle_all cap rest c1) as [c2 ds].
    constructor; [reflexivity | exact IH].
Qed.

(** When every rejection carries a reason other than [undefined] and
    [null], the promise that [loadState] returns is fulfilled with
    [undefined] once all computations have settled. *)
Theorem loadState_settled_resolves schedule c :
  Forall (fun ko => rejects_without_reason ko.2 = false) schedule ->
  (loadState_settled schedule c).2 = Fulfilled JUndefined.
Proof.
  intros H. unfold loadState_settled.
  destruct (loadState schedule.*1 c) as [c1 cap].
  pose proof (settle_all_outcomes cap schedule c1 H) as Hds.
  destruct (settle_all cap schedule c1) as [c2 ds]. cbn in *.
  rewrite (Promise_all_fulfilled ds Hds). reflexivity.
Qed.

(** C1: a computation for [task] is registered twice.  The first one
    settles late and is ignored, as the guard intends.  The second one is
    rejected without a reason: the state of [task] is not updated and stays
    as it was while loading, although nothing newer was registered. *)
Theorem C1_current_rejection_without_reason_is_lost :
  let c1 := (loadState [js "task"] initial).1 in
  let cap1 := (loadState [js "task"] initial).2 in
  let c2 := (loadState [js "task"] c1).1 in
  let cap2 := (loadState [js "task"] c1).2 in
  (settle cap1 (js "task") (Fulfilled (JStr (js "old"))) c2).1 = c2
  /\ cap2 !! js "task" = currentIteration (js "task") c2
  /\ (settle cap2 (js "task") (Rejected JUndefined) c2).1 = c2
  /\ Loaded_of (js "task") c2 = Some (JBool false)
  /\ Error_of (js "task") c2 = Some JUndefined
  /\ value_of (js "task") c2 = Some JUndefined.
Proof.
  intros c1 cap1 c2 cap2. split; [|split; [|split]].
  - apply (stale_settlement_ignored initial [js "task"] [] [js "task"] []);
      [apply list_elem_of_singleton; reflexivity
      | apply list_elem_of_singleton; reflexivity
      | discriminate
      | vm_compute; reflexivity].
  - vm_compute. reflexivity.
  - reflexivity.
  - vm_compute. repeat split.
Qed.

(** C7: the computation of [task] is rejected with [undefined] as its
    reason and is not superseded.  The callback throws before it stores
    anything: [taskLoaded] stays [false] and [taskError] stays
    [undefined]. *)
Theorem C7_rejection_without_reason_stores_no_error :
  let c1 := (loadState [js "task"] initial).1 in
  let cap := (loadState [js "task"] initial).2 in
  let c2 := (settle cap (js "task") (Rejected JUndefined) c1).1 in
  cap !! js "task" = currentIteration (js "task") c1
  /\ Loaded_of (js "task") c2 = Some (JBool false)
  /\ Error_of (js "task") c2 = Some JUndefined.
Proof. vm_compute. repeat split. Qed.

(** C8: the only computation of the mapping is rejected with [undefined]
    as its reason.  The callback throws a [TypeError], and the promise
    that [loadState] returned is rejected with it. *)
Theorem C8_loadState_promise_rejected :
  (loadState_settled [(js "task", Rejected JUndefined)] initial).2
  = Rejected cannot_read
  /\ (loadState_settled
        [(js "a", Fulfilled (JNum 1)); (js "b", Rejected JNull)] initial).2
     = Rejected cannot_read.
Proof. vm_compute. split; reflexivity. Qed.

End LoaderSpec.

(** ** The subscription manager *)

Module WebListenerSpec.
Import WebListenerMixin.

(** *** The calls made on a listener *)

Definition bind_all (items : list jsval) (w : WebListener) : WebListener :=
  foldl (fun w b => listener_bind b w) w items.

Lemma bound_bind_all items w : bound (bind_all items w) = bound w ++ items.
Proof.
  revert w. induction items as [|b items IH]; intros w; cbn.
  - rewrite app_nil_r. reflexivity.
  - unfold bind_all in IH. rewrite IH. cbn. rewrite <- app_assoc.
    reflexivity.
Qed.

Lemma bind_all_others items w :
  handlers (bind_all items w) = handlers w
  /\ resumed (bind_all items w) = resumed w
  /\ closed (bind_all items w) = closed w.
Proof.
  revert w. induction items as [|b items IH]; intros w; cbn.
  - repeat split.
  - unfold bind_all in IH.
    destruct (IH (listener_bind b w)) as (H1 & H2 & H3).
    rewrite H1, H2, H3. repeat split.
Qed.

Lemma with_listener_lookup l f c :
  listeners (with_listener l f c) !! l = f <$> listeners c !! l.
Proof. apply list_lookup_alter_eq. Qed.

Lemma with_listener_length l f c :
  length (listeners (with_listener l f c)) = length (listeners c).
Proof. apply length_alter. Qed.

Section BindLoop.
Variable l : nat.

Definition bind_loop (items : list jsval) (c : component) : component :=
  foldl (fun c b => with_listener l (listener_bind b) c) c items.

Lemma bind_loop_state items c : state (bind_loop items c) = state c.
Proof.
  revert c. induction items as [|b items IH]; intros c; [reflexivity|].
  cbn. unfold bind_loop in IH. rewrite IH. reflexivity.
Qed.

Lemma bind_loop_this items c :
  this_listener (bind_loop items c) = this_listener c.
Proof.
  revert c. induction items as [|b items IH]; intros c; [reflexivity|].
  cbn. unfold bind_loop in IH. rewrite IH. reflexivity.
Qed.

Lemma bind_loop_length items c :
  length (listeners (bind_loop items c)) = length (listeners c).
Proof.
  revert c. induction items as [|b items IH]; intros c; [reflexivity|].
  cbn. unfold bind_loop in IH. rewrite IH. apply with_listener_length.
Qed.

Lemma bind_loop_lookup items c :
  listeners (bind_loop items c) !! l
  = bind_all items <$> listeners c !! l.
Proof.
  revert c. induction items as [|b items IH]; intros c.
  - cbn. destruct (listeners c !! l); reflexivity.
  - cbn. unfold bind_loop in IH. rewrite IH, with_listener_lookup.
    destruct (listeners c !! l); reflexivity.
Qed.
End BindLoop.

Lemma alter_last {A} (f : A -> A) (xs : list A) (x : A) :
  alter f (length xs) (xs ++ [x]) = xs ++ [f x].
Proof.
  rewrite <- (Nat.add_0_r (length xs)) at 1. rewrite alter_app_r.
  reflexivity.
Qed.

(** *** [startListening] *)

Lemma guard_nonempty (items : list jsval) :
  items ≠ [] ->
  negb (truthy (JArr items)) || is_zero (length_of (JArr items)) = false.
Proof. destruct items; [congruence | reflexivity]. Qed.

Lemma startListening_first items c :
  items ≠ [] -> this_listener c = None ->
  let l := length (listeners c) in
  let c' := (startListening (JArr items) c).1 in
  (startListening (JArr items) c).2 = Ok (Starting l)
  /\ this_listener c' = Some l
  /\ length (listeners c') = S l
  /\ listeners c' !! l =
       Some {| handlers := [js "message"; js "error"]; bound := items;
               resumed := true; closed := false |}.
Proof.
  intros Hne Hnone l c'. subst c'. unfold startListening.
  rewrite (guard_nonempty items Hne), Hnone. fold l.
  cbv beta zeta iota.
  set (c0 := {| state := state c; this_listener := Some l;
                listeners := listeners c ++ [new_WebListener] |}).
  set (c1 := with_listener l (listener_on "error")
               (with_listener l (listener_on "message") c0)).
  fold (bind_loop l items c1). cbn [fst snd].
  assert (H1 : listeners c1 = listeners c ++
            [listener_on "error" (listener_on "message" new_WebListener)]).
  { unfold c1, with_listener, c0, l. cbn [listeners].
    rewrite !alter_last. reflexivity. }
  repeat split.
  - cbn [with_listener with_state this_listener].
    rewrite bind_loop_this. reflexivity.
  - rewrite with_listener_length. cbn [with_state listeners].
    rewrite bind_loop_length, H1, length_app. cbn [length]. lia.
  - rewrite with_listener_lookup. cbn [with_state listeners].
    rewrite bind_loop_lookup, H1.
    unfold l. rewrite list_lookup_middle by reflexivity.
    cbn [fmap option_fmap option_map].
    unfold listener_resume.
    destruct (bind_all_others items
                (listener_on "error" (listener_on "message" new_WebListener)))
      as (Hh & _ & Hc).
    rewrite Hh, Hc, (bound_bind_all items). reflexivity.
Qed.

Lemma startListening_more items c l :
  items ≠ [] -> this_listener c = Some l ->
  let c' := (startListening (JArr items) c).1 in
  (startListening (JArr items) c).2 = Ok (Binding l)
  /\ this_listener c' = Some l
  /\ length (listeners c') = length (listeners c)
  /\ listeners c' !! l = bind_all items <$> listeners c !! l.
Proof.
  intros Hne Hsome c'. subst c'. unfold startListening.
  rewrite (guard_nonempty items Hne), Hsome.
  cbv beta zeta iota.
  fold (bind_loop l items
          (with_state (setState (listening_state JNull)) c)).
  cbn [fst snd]. repeat split.
  - rewrite bind_loop_this. exact Hsome.
  - rewrite bind_loop_length. reflexivity.
  - rewrite bind_loop_lookup. reflexivity.
Qed.

(** C3: two calls of [startListening] with non-empty filter lists [F1]
    and [F2] (disjoint or not) on a component without a listener, the
    first call's promise fulfilled in between or not: one [WebListener] is
    constructed, the component holds it, and it was bound to every filter
    of [F1] and of [F2]. *)
Theorem C3_startListening_twice (F1 F2 : list jsval) (c : component)
    (settled : bool) :
  F1 ≠ [] -> F2 ≠ [] -> this_listener c = None ->
  let l := length (listeners c) in
  let c1 := (startListening (JArr F1) c).1 in
  let c1' := if settled then onListening c1 else c1 in
  let c2 := (startListening (JArr F2) c1').1 in
  (startListening (JArr F1) c).2 = Ok (Starting l)
  /\ (startListening (JArr F2) c1').2 = Ok (Binding l)
  /\ this_listener c2 = Some l
  /\ length (listeners c2) = S (length (listeners c))
  /\ exists w, listeners c2 !! l = Some w
               /\ bound w = F1 ++ F2
               /\ forall b, b ∈ F1 \/ b ∈ F2 -> b ∈ bound w.
Proof.
  intros H1 H2 Hnone l c1 c1' c2.
  destruct (startListening_first F1 c H1 Hnone) as (Hr1 & Ht1 & Hl1 & Hw1).
  fold l c1 in Hr1, Ht1, Hl1, Hw1.
  assert (Ht1' : this_listener c1' = Some l)
    by (unfold c1'; destruct settled; exact Ht1).
  assert (Hls : listeners c1' = listeners c1)
    by (unfold c1'; destruct settled; reflexivity).
  destruct (startListening_more F2 c1' l H2 Ht1') as (Hr2 & Ht2 & Hl2 & Hw2).
  fold c2 in Ht2, Hl2, Hw2.
  split; [exact Hr1|]. split; [exact Hr2|]. split; [exact Ht2|].
  split; [rewrite Hl2, Hls; exact Hl1|].
  rewrite Hls, Hw1 in Hw2. cbn in Hw2.
  eexists. split; [exact Hw2|].
  rewrite bound_bind_all. cbn [bound]. split; [reflexivity|].
  intros b Hb. apply elem_of_app. exact Hb.
Qed.

(** With a listener already at hand, the two calls construct none and bind
    their filters to it. *)
Lemma startListening_twice_listening (F1 F2 : list jsval) (c : component)
    (l : nat) (w0 : WebListener) :
  F1 ≠ [] -> F2 ≠ [] ->
  this_listener c = Some l -> listeners c !! l = Some w0 ->
  let c2 := (startListening (JArr F2) (startListening (JArr F1) c).1).1 in
  this_listener c2 = Some l
  /\ length (listeners c2) = length (listeners c)
  /\ exists w, listeners c2 !! l = Some w
               /\ bound w = bound w0 ++ F1 ++ F2.
Proof.
  intros H1 H2 Hl Hw c2.
  destruct (startListening_more F1 c l H1 Hl) as (_ & Ht1 & Hl1 & Hw1).
  destruct (startListening_more F2 _ l H2 Ht1) as (_ & Ht2 & Hl2 & Hw2).
  fold c2 in Ht2, Hl2, Hw2.
  split; [exact Ht2|]. split; [congruence|].
  rewrite Hw1, Hw in Hw2. cbn in Hw2.
  eexists. split; [exact Hw2|].
  rewrite !bound_bind_all, app_assoc. reflexivity.
Qed.

Lemma C3_witness :
  exists w,
    listeners
      (startListening (JArr [JStr (js "b"); JStr (js "c")])
         (startListening (JArr [JStr (js "a")]) initial).1).1 !! 0%nat
    = Some w
    /\ bound w = [JStr (js "a"); JStr (js "b"); JStr (js "c")].
Proof.
  destruct (C3_startListening_twice [JStr (js "a")]
              [JStr (js "b"); JStr (js "c")] initial false)
    as (_ & _ & _ & _ & w & Hw & Hb & _);
    [discriminate | discriminate | reflexivity |].
  exists w. split; [exact Hw | exact Hb].
Defined.

(** C4: mounting a component configured with a non-empty list of
    bindings.  [componentDidMount] passes the length of the list, a
    number, to [startListening]: the listener is constructed and gets its
    two handlers, then [bindings.map] throws a [TypeError]; no filter is
    bound, [resume] is not called and the state is not touched. *)
Theorem C4_componentDidMount_binds_nothing (options_bindings : list jsval)
    (c : component) :
  options_bindings ≠ [] ->
  let c' := (componentDidMount options_bindings c).1 in
  (componentDidMount options_bindings c).2 = Throw not_a_function
  /\ this_listener c' = Some (length (listeners c))
  /\ listeners c' =
       listeners c ++
         [{| handlers := [js "message"; js "error"]; bound := [];
             resumed := false; closed := false |}]
  /\ state c' = state c.
Proof.
  intros Hne c'. subst c'. unfold componentDidMount.
  destruct options_bindings as [|b bs]; [congruence|].
  replace (0 <? length (b :: bs))%nat with true by reflexivity.
  unfold startListening.
  replace (negb (truthy (JNum (Z.of_nat (length (b :: bs))))) ||
           is_zero (length_of (JNum (Z.of_nat (length (b :: bs))))))
    with false by reflexivity.
  cbn [this_listener listeners state with_listener fst snd].
  rewrite !alter_last. repeat split.
Qed.

Lemma C4_witness :
  (componentDidMount [JStr (js "task-defined")] initial).2
  = Throw not_a_function
  /\ the_listener (componentDidMount [JStr (js "task-defined")] initial).1
     = Some {| handlers := [js "message"; js "error"]; bound := [];
               resumed := false; closed := false |}.
Proof.
  destruct (C4_componentDidMount_binds_nothing
              [JStr (js "task-defined")] initial)
    as (Hr & Ht & Hl & _); [discriminate|].
  split; [exact Hr|].
  unfold the_listener. rewrite Ht, Hl. reflexivity.
Defined.

(** *** [stopListening] *)

Lemma setState_twice (p st : gmap jsstring jsval) :
  setState p (setState p st) = setState p st.
Proof.
  unfold setState. rewrite (assoc (∪)), (idemp (∪)). reflexivity.
Qed.

Definition not_listening : gmap jsstring jsval :=
  <[js "listening" := JBool false]> ∅.

Lemma stopListening_None c :
  this_listener c = None ->
  stopListening c
  = (with_state (setState not_listening) c, Resolved JUndefined).
Proof.
  intros H. unfold stopListening. cbn [with_state this_listener].
  rewrite H. reflexivity.
Qed.

Lemma stopListening_Some c l :
  this_listener c = Some l ->
  stopListening c
  = ({| state := setState not_listening (state c);
        this_listener := None;
        listeners := alter listener_close l (listeners c) |}, Closing l).
Proof.
  intros H. unfold stopListening. cbn [with_state this_listener].
  rewrite H. reflexivity.
Qed.

(** After [stopListening] there is no listener: another call changes
    nothing and returns a resolved promise, whatever the first one found. *)
Lemma stopListening_again c :
  stopListening (stopListening c).1
  = ((stopListening c).1, Resolved JUndefined).
Proof.
  destruct (this_listener c) as [l|] eqn:Hl.
  - rewrite (stopListening_Some c l Hl). cbn [fst].
    rewrite stopListening_None by reflexivity.
    unfold with_state. cbn [state this_listener listeners].
    rewrite setState_twice. reflexivity.
  - rewrite (stopListening_None c Hl). cbn [fst].
    rewrite stopListening_None by exact Hl.
    unfold with_state. cbn [state this_listener listeners].
    rewrite setState_twice. reflexivity.
Qed.

(** C5: [stopListening] on a component without a listener does not
    throw, returns [Promise.resolve(undefined)], sets [listening] to
    [false] and changes nothing else; calling it again has the same
    result. *)
Theorem C5_stopListening_nothing_open (c : component) :
  this_listener c = None ->
  let c' := (stopListening c).1 in
  (stopListening c).2 = Resolved JUndefined
  /\ state c' !! js "listening" = Some (JBool false)
  /\ (forall k, k ≠ js "listening" -> state c' !! k = state c !! k)
  /\ this_listener c' = None
  /\ listeners c' = listeners c
  /\ stopListening c' = (c', Resolved JUndefined).
Proof.
  intros Hnone c'. subst c'.
  split; [|split; [|split; [|split; [|split]]]];
    try apply stopListening_again;
    rewrite (stopListening_None c Hnone);
    cbn [fst snd with_state state this_listener listeners];
    try reflexivity; try exact Hnone.
  - unfold setState. erewrite lookup_union_Some_l; [reflexivity|].
    apply lookup_insert_eq.
  - intros k Hk. unfold setState. rewrite lookup_union_r; [reflexivity|].
    unfold not_listening. rewrite lookup_insert_ne by congruence.
    apply lookup_empty.
Qed.

Lemma C5_witness :
  this_listener
    {| state := {[js "listening" := JBool true]};
       this_listener := None; listeners := [] |} = None
  /\ (stopListening
        {| state := {[js "listening" := JBool true]};
           this_listener := None; listeners := [] |}).2
     = Resolved JUndefined.
Proof.
  split; [reflexivity|].
  exact (proj1 (C5_stopListening_nothing_open
                  {| state := {[js "listening" := JBool true]};
                     this_listener := None; listeners := [] |} eq_refl)).
Defined.

(** C10: [startListening] without bindings, with [null] or with an empty
    array returns [Promise.resolve(undefined)] and leaves the component as
    it is: no listener is constructed and the state is not set. *)
Theorem C10_startListening_without_bindings (c : component) :
  startListening JUndefined c = (c, Ok (Resolved JUndefined))
  /\ startListening JNull c = (c, Ok (Resolved JUndefined))
  /\ startListening (JArr []) c = (c, Ok (Resolved JUndefined)).
Proof. repeat split. Qed.

End WebListenerSpec.

(** ** The URL fragment synchronizer *)

Module LocationHashSpec.
Import LocationHashMixin StringsSpec.

(** The segment the mixin owns, as both of its methods read it:
    [fragments[this.props.hashIndex] || '']. *)
Definition segment_of (c : component) : result jsstring :=
  bind (fragments_of c) (fun fragments =>
  Ok (fragment_at (hashIndex c) fragments)).



Example decodeURIComponent_ex :
  decodeURIComponent (js "a%20b%2Fc%252fd") = Ok (js "a b/c%2fd")
  /\ decodeURIComponent (js "%E4%B8%AD%f0%9f%98%80")
     = Ok [0x4e2d; 0xd83d; 0xde00]
  /\ decodeURIComponent (js "100%") = Throw URIError
  /\ decodeURIComponent (js "%zz") = Throw URIError
  /\ decodeURIComponent (js "%c0%80") = Throw URIError
  /\ decodeURIComponent (js "%ed%a0%80") = Throw URIError
  /\ decodeURIComponent (js "%e4%b8") = Throw URIError.
Proof. vm_compute. repeat split. Qed.

Example split_join_ex :
  split (ch "/") (js "a//b/") = [js "a"; []; js "b"; []]
  /\ split (ch "/") [] = [[]]
  /\ join (ch "/") (array_set 3 (js "new") [js "a"]) = js "a///new".
Proof. vm_compute. repeat split. Qed.

(** What [handleHashChange] does with a segment it could read. *)
Lemma handleHashChange_changed c fragment :
  segment_of c = Ok fragment ->
  this_previousHashFragment c ≠ Some fragment ->
  handleHashChange c
  = Ok {| location_hash := location_hash c;
          hashIndex := hashIndex c;
          this_previousHashFragment := Some fragment;
          load_calls :=
            load_calls c
            ++ [replace_go [37; 50; 102] (fun _ => [47]) 0 fragment] |}.
Proof.
  unfold segment_of, handleHashChange.
  destruct (fragments_of c) as [fragments|e]; cbn [bind]; [|discriminate].
  intros [= <-] Hne. rewrite decide_False by exact Hne.
  rewrite unescapeChar_slash. reflexivity.
Qed.

Lemma handleHashChange_unchanged c fragment :
  segment_of c = Ok fragment ->
  this_previousHashFragment c = Some fragment ->
  handleHashChange c = Ok c.
Proof.
  unfold segment_of, handleHashChange.
  destruct (fragments_of c) as [fragments|e]; cbn [bind]; [|discriminate].
  intros [= <-] Heq. rewrite decide_True by exact Heq. reflexivity.
Qed.

Lemma handleHashChange_throws c e :
  segment_of c = Throw e -> handleHashChange c = Throw e.
Proof.
  unfold segment_of, handleHashChange.
  destruct (fragments_of c) as [fragments|e']; cbn [bind]; congruence.
Qed.


(** *** Splitting and joining *)

Lemma split_nonempty sep s : split sep s ≠ [].
Proof.
  destruct s as [|c s]; cbn [split]; [discriminate|].
  destruct (c =? sep); [discriminate|].
  destruct (split sep s); discriminate.
Qed.

Lemma split_no_sep sep s : Forall (fun w => sep ∉ w) (split sep s).
Proof.
  induction s as [|c s IH]; cbn [split].
  - constructor; [apply not_elem_of_nil | constructor].
  - destruct (c =? sep) eqn:Hc.
    + constructor; [apply not_elem_of_nil | exact IH].
    + apply N.eqb_neq in Hc.
      destruct (split sep s) as [|w ws].
      * constructor; [|constructor].
        rewrite not_elem_of_cons. split; [congruence|apply not_elem_of_nil].
      * inversion IH as [|? ? Hw Hws]; subst.
        constructor; [|exact Hws].
        rewrite not_elem_of_cons. split; [congruence | exact Hw].
Qed.

Lemma split_join_cons sep (w : jsstring) (ws : list jsstring) :
  sep ∉ w -> Forall (fun x => sep ∉ x) ws ->
  split sep (join sep (w :: ws)) = w :: ws.
Proof.
  intros Hw Hws. revert w Hw.
  induction Hws as [|x ws Hx Hws IH]; intros w Hw.
  - cbn [join flat_map]. rewrite app_nil_r.
    induction w as [|c w IHw]; [reflexivity|].
    rewrite not_elem_of_cons in Hw. destruct Hw as [Hc Hw].
    cbn [split]. rewrite (proj2 (N.eqb_neq c sep)) by congruence.
    rewrite (IHw Hw). reflexivity.
  - cbn [join flat_map].
    induction w as [|c w IHw].
    + cbn [app split]. rewrite N.eqb_refl. f_equal.
      apply (IH x Hx).
    + rewrite not_elem_of_cons in Hw. destruct Hw as [Hc Hw].
      cbn [join flat_map app] in IHw.
      cbn [app split]. rewrite (proj2 (N.eqb_neq c sep)) by congruence.
      rewrite (IHw Hw). reflexivity.
Qed.

Lemma split_join sep (a : list jsstring) :
  a ≠ [] -> Forall (fun x => sep ∉ x) a -> split sep (join sep a) = a.
Proof.
  destruct a as [|w ws]; [congruence|]. intros _ H.
  inversion H; subst. apply split_join_cons; assumption.
Qed.

(** *** Writing one element of the array *)

Lemma fragment_at_array_set_eq i v a : fragment_at i (array_set i v a) = v.
Proof.
  unfold fragment_at, array_set.
  destruct (i <? length a)%nat eqn:Hi.
  - apply Nat.ltb_lt in Hi. rewrite list_lookup_insert_eq by exact Hi.
    reflexivity.
  - apply Nat.ltb_ge in Hi. rewrite app_assoc.
    rewrite list_lookup_middle; [reflexivity|].
    rewrite length_app, length_replicate. lia.
Qed.

Lemma fragment_at_array_set_ne i j v a :
  i ≠ j -> fragment_at j (array_set i v a) = fragment_at j a.
Proof.
  intros Hij. unfold fragment_at, array_set.
  destruct (i <? length a)%nat eqn:Hi.
  - rewrite list_lookup_insert_ne by exact Hij. reflexivity.
  - apply Nat.ltb_ge in Hi.
    destruct (decide (j < length a)%nat) as [Hj|Hj].
    + rewrite lookup_app_l by exact Hj. reflexivity.
    + rewrite (lookup_ge_None_2 a j) by lia.
      rewrite lookup_app_r by lia.
      destruct (decide (j - length a < i - length a)%nat) as [Hlt|Hge].
      * rewrite lookup_app_l by (rewrite length_replicate; exact Hlt).
        rewrite lookup_replicate_2 by exact Hlt. reflexivity.
      * rewrite lookup_ge_None_2; [reflexivity|].
        rewrite length_app, length_replicate. cbn. lia.
Qed.

Lemma array_set_Forall (P : jsstring -> Prop) i v a :
  Forall P a -> P v -> P [] -> Forall P (array_set i v a).
Proof.
  intros Ha Hv Hnil. unfold array_set.
  destruct (i <? length a)%nat.
  - apply Forall_insert; assumption.
  - rewrite !Forall_app. repeat split; [exact Ha | | ].
    + apply Forall_replicate. exact Hnil.
    + constructor; [exact Hv | constructor].
Qed.

Lemma array_set_nonempty i v a : array_set i v a ≠ [].
Proof.
  intros H. apply (f_equal length) in H. unfold array_set in H.
  destruct (i <? length a)%nat eqn:Hi.
  - apply Nat.ltb_lt in Hi. rewrite length_insert in H. cbn in H. lia.
  - rewrite !length_app in H. cbn in H. lia.
Qed.

(** *** Encoding and decoding the fragment *)

(** The code units that [encodeFragment] writes so that
    [decodeURIComponent] reads them back: those with a two-digit
    hexadecimal code below 128. *)
Definition plain (c : N) : bool := (16 <=? c) && (c <? 128).

Definition hex_round_trip (c : N) : bool :=
  match toString16 c with
  | [h1; h2] =>
      match hexbyte h1 h2 with
      | Some b => b =? c
      | None => false
      end
  | _ => false
  end.

Lemma hex_round_trip_all :
  forallb hex_round_trip (map N.of_nat (seq 16 112)) = true.
Proof. vm_compute. reflexivity. Qed.

Lemma hex_round_trip_plain c : plain c = true -> hex_round_trip c = true.
Proof.
  unfold plain. rewrite andb_true_iff, N.leb_le, N.ltb_lt. intros [H1 H2].
  pose proof hex_round_trip_all as Hall.
  rewrite List.forallb_forall in Hall. apply Hall.
  apply List.in_map_iff. exists (N.to_nat c).
  split; [apply N2Nat.id|]. apply List.in_seq. lia.
Qed.

Lemma percent_not_safe : fragment_safe (ch "%") = false.
Proof. reflexivity. Qed.

Lemma decode_encode_plain (s : jsstring) :
  forallb plain s = true ->
  decode_go None (encodeFragment s) = Some s.
Proof.
  induction s as [|c s IH]; [reflexivity|].
  cbn [forallb]. rewrite andb_true_iff. intros [Hc Hs].
  specialize (IH Hs).
  unfold encodeFragment in *. cbn [flat_map].
  destruct (fragment_safe c) eqn:Hsafe.
  - cbn [app decode_go].
    destruct (c =? ch "%") eqn:Hp.
    + apply N.eqb_eq in Hp. subst c. rewrite percent_not_safe in Hsafe.
      discriminate.
    + rewrite IH. reflexivity.
  - pose proof (hex_round_trip_plain c Hc) as Hh.
    unfold hex_round_trip in Hh.
    change (percent_hex [c]) with (ch "%" :: toString16 c).
    destruct (toString16 c) as [|h1 [|h2 [|h3 t]]]; try discriminate.
    destruct (hexbyte h1 h2) as [b|] eqn:Hb; [|discriminate].
    apply N.eqb_eq in Hh. subst b.
    cbn [app decode_go]. rewrite N.eqb_refl, Hb.
    unfold plain in Hc. apply andb_true_iff in Hc as [_ Hc].
    change 0x80 with 128. rewrite Hc, IH. reflexivity.
Qed.

Lemma forallb_app_true {A} (f : A -> bool) (l1 l2 : list A) :
  forallb f (l1 ++ l2) = true <->
  forallb f l1 = true /\ forallb f l2 = true.
Proof. rewrite List.forallb_app, andb_true_iff. reflexivity. Qed.

Lemma escape_slash_plain s :
  forallb plain s = true -> forallb plain (escape_slash s) = true.
Proof.
  induction s as [|c s IH]; [reflexivity|].
  cbn [forallb]. rewrite andb_true_iff. intros [Hc Hs].
  unfold escape_slash in *. cbn [flat_map]. rewrite forallb_app_true.
  split; [|exact (IH Hs)].
  destruct (c =? 47); [reflexivity|]. cbn [forallb]. rewrite Hc.
  reflexivity.
Qed.

Lemma split_plain sep s :
  forallb plain s = true ->
  Forall (fun w => forallb plain w = true) (split sep s).
Proof.
  induction s as [|c s IH]; cbn [split forallb].
  - intros _. constructor; [reflexivity | constructor].
  - rewrite andb_true_iff. intros [Hc Hs]. specialize (IH Hs).
    destruct (c =? sep); [constructor; [reflexivity | exact IH]|].
    destruct (split sep s) as [|w ws].
    + constructor; [|constructor]. cbn. rewrite Hc. reflexivity.
    + inversion IH as [|? ? Hw Hws]; subst.
      constructor; [|exact Hws]. cbn. rewrite Hc. exact Hw.
Qed.

Lemma join_plain sep a :
  plain sep = true ->
  Forall (fun w => forallb plain w = true) a ->
  forallb plain (join sep a) = true.
Proof.
  intros Hsep Ha. destruct Ha as [|w ws Hw Hws]; [reflexivity|].
  cbn [join]. rewrite forallb_app_true. split; [exact Hw|].
  induction Hws as [|x ws Hx Hws IH]; [reflexivity|].
  cbn [flat_map forallb app]. rewrite Hsep. cbn [andb].
  rewrite forallb_app_true. split; assumption.
Qed.

(** *** Rewriting the fragment *)

Lemma js_or_string s : js_or (JStr s) (JStr []) = JStr s.
Proof. destruct s; reflexivity. Qed.

Lemma fragments_of_set_location_hash (x : jsstring) (c : component) :
  fragments_of (set_location_hash (ch "#" :: x) c)
  = bind (decodeURIComponent x) (fun hash => Ok (split (ch "/") hash)).
Proof.
  unfold fragments_of, set_location_hash. rewrite N.eqb_refl.
  cbn [location_hash]. destruct x; reflexivity.
Qed.

(** When the decoded fragment and the saved value hold plain code units
    only, [componentDidUpdate] replaces the segment at [hashIndex] by the
    escaped value and every other segment reads as before. *)
Theorem componentDidUpdate_frame (c : component) (s hash : jsstring) :
  decodeURIComponent (tail (location_hash c)) = Ok hash ->
  forallb plain hash = true -> forallb plain s = true ->
  fragment_at (hashIndex c) (split (ch "/") hash) ≠ escape_slash s ->
  exists c' fragments',
    componentDidUpdate (JStr s) c = Ok c'
    /\ hashIndex c' = hashIndex c
    /\ this_previousHashFragment c' = this_previousHashFragment c
    /\ load_calls c' = load_calls c
    /\ fragments_of c' = Ok fragments'
    /\ fragment_at (hashIndex c) fragments' = escape_slash s
    /\ forall j, j ≠ hashIndex c ->
         fragment_at j fragments' = fragment_at j (split (ch "/") hash).
Proof.
  intros Hdec Hhash Hs Hne.
  assert (Hu : componentDidUpdate (JStr s) c
               = Ok (set_location_hash
                       (ch "#" :: encodeFragment
                          (join (ch "/")
                             (array_set (hashIndex c) (escape_slash s)
                                (split (ch "/") hash)))) c)).
  { unfold componentDidUpdate, fragments_of. rewrite Hdec. cbn [bind].
    rewrite js_or_string, escapeChar_slash. cbn [bind].
    rewrite decide_False by exact Hne. reflexivity. }
  eexists _, _. split; [exact Hu|].
  rewrite fragments_of_set_location_hash.
  unfold decodeURIComponent at 1. rewrite decode_encode_plain.
  2:{ apply join_plain; [reflexivity|].
      apply array_set_Forall;
        [apply split_plain; exact Hhash
        | apply escape_slash_plain; exact Hs | reflexivity]. }
  cbn [bind]. rewrite split_join.
  2:{ apply array_set_nonempty. }
  2:{ apply array_set_Forall;
        [apply split_no_sep | apply escape_slash_no_slash
        | apply not_elem_of_nil]. }
  repeat split.
  - apply fragment_at_array_set_eq.
  - intros j Hj. apply fragment_at_array_set_ne. congruence.
Qed.

(** Reading the rewritten fragment back calls [options.load] with the
    saved value, when that value does not hold [%2f] and the segment is
    not the one remembered. *)
Theorem save_then_load (c : component) (s hash : jsstring) :
  decodeURIComponent (tail (location_hash c)) = Ok hash ->
  forallb plain hash = true -> forallb plain s = true ->
  includes (js "%2f") s = false ->
  fragment_at (hashIndex c) (split (ch "/") hash) ≠ escape_slash s ->
  this_previousHashFragment c ≠ Some (escape_slash s) ->
  exists c',
    componentDidUpdate (JStr s) c = Ok c'
    /\ exists c'', handleHashChange c' = Ok c''
                   /\ load_calls c'' = load_calls c ++ [s].
Proof.
  intros Hdec Hhash Hs Hinc Hne Hprev.
  destruct (componentDidUpdate_frame c s hash Hdec Hhash Hs Hne)
    as (c' & fs & Hu & Hi & Hp & Hl & Hf & Hseg & _).
  exists c'. split; [exact Hu|].
  assert (Hsegment : segment_of c' = Ok (escape_slash s)).
  { unfold segment_of. rewrite Hf, Hi. cbn [bind]. rewrite Hseg.
    reflexivity. }
  rewrite (handleHashChange_changed c' (escape_slash s) Hsegment)
    by (rewrite Hp; exact Hprev).
  eexists. split; [reflexivity|]. cbn [load_calls].
  rewrite Hl. rewrite (unescape_escape_slash s Hinc). reflexivity.
Qed.

(** The example of the specification: segment 2 of [#a/b/old/d] becomes
    [new], and the notification that follows calls [options.load] with
    [new]. *)
Example fragment_example :
  let c := {| location_hash := js "#a/b/old/d"; hashIndex := 2;
              this_previousHashFragment := Some (js "old");
              load_calls := [] |} in
  let c' := {| location_hash := js "#a/b/new/d"; hashIndex := 2;
               this_previousHashFragment := Some (js "old");
               load_calls := [] |} in
  componentDidUpdate (JStr (js "new")) c = Ok c'
  /\ handleHashChange c'
     = Ok {| location_hash := js "#a/b/new/d"; hashIndex := 2;
             this_previousHashFragment := Some (js "new");
             load_calls := [js "new"] |}.
Proof. vm_compute. split; reflexivity. Qed.

(** C6: the fragment is [#caf%C3%A9/b/old], the mixin owns segment 2 and
    the saved value is [new].  The decoded segments are [café], [b] and
    [old]; [componentDidUpdate] writes [#caf%e9/b/new]: segment 0 is
    rewritten as well, and [decodeURIComponent] no longer reads the
    fragment, so the notification that follows throws a [URIError] and
    does not call [options.load]. *)
Theorem C6_other_segment_rewritten :
  let c := {| location_hash := js "#caf%C3%A9/b/old"; hashIndex := 2;
              this_previousHashFragment := Some (js "old");
              load_calls := [] |} in
  let c' := {| location_hash := js "#caf%e9/b/new"; hashIndex := 2;
               this_previousHashFragment := Some (js "old");
               load_calls := [] |} in
  fragments_of c = Ok [js "caf" ++ [233]; js "b"; js "old"]
  /\ componentDidUpdate (JStr (js "new")) c = Ok c'
  /\ fragments_of c' = Throw URIError
  /\ handleHashChange c' = Throw URIError.
Proof. vm_compute. repeat split. Qed.

(** The same happens with a control character in another segment: its
    code is written with one hexadecimal digit. *)
Example control_character_rewritten :
  componentDidUpdate (JStr (js "new"))
    {| location_hash := js "#a%09b/x/old"; hashIndex := 2;
       this_previousHashFragment := None; load_calls := [] |}
  = Ok {| location_hash := js "#a%9b/x/new"; hashIndex := 2;
          this_previousHashFragment := None; load_calls := [] |}
  /\ decodeURIComponent (js "a%9b/x/new") = Throw URIError.
Proof. vm_compute. split; reflexivity. Qed.

(** *** What a notification compares with *)







End LocationHashSpec.


(** ** More on the state loader: pending state, frames, rendering *)

Module LoaderExtra.
Import TaskClusterMixin LoaderSpec.

(** The state keys that the loop of [loadState] and [setLoaded] write for
    the property [Q]. *)
Definition written (Q k : jsstring) : Prop :=
  k = Q \/ k = Q ++ js "Loaded" \/ k = Q ++ js "Error".

(** Two properties clash when one is named like a state field of the
    other, as [task] and [taskLoaded] do. *)
Definition clashes (P Q : jsstring) : Prop :=
  Q = P ++ js "Loaded" \/ Q = P ++ js "Error"
  \/ P = Q ++ js "Loaded" \/ P = Q ++ js "Error".

Lemma Loaded_Error_mismatch (P Q : jsstring) :
  P ++ js "Loaded" ≠ Q ++ js "Error".
Proof.
  intros H. apply (f_equal last) in H. rewrite !last_app in H.
  discriminate.
Qed.

Lemma body_state (Q k : jsstring) st m cap :
  (loadState_body Q (st, m, cap)).1.1 !! k
  = if decide (k = Q) then Some JUndefined
    else if decide (k = Q ++ js "Error") then Some JUndefined
    else if decide (k = Q ++ js "Loaded") then Some (JBool false)
    else st !! k.
Proof.
  cbn [loadState_body fst].
  repeat case_decide; subst;
    rewrite ?lookup_insert_eq; try reflexivity.
  - rewrite lookup_insert_ne by congruence. apply lookup_insert_eq.
  - rewrite !lookup_insert_ne by congruence. apply lookup_insert_eq.
  - rewrite !lookup_insert_ne by congruence. reflexivity.
Qed.

Lemma loop_state_frame ks m k :
  (forall Q, Q ∈ ks -> ~ written Q k) -> (loop ks m).1.1 !! k = None.
Proof.
  induction ks as [|Q ks IH] using rev_ind; intros H; [apply lookup_empty|].
  rewrite loop_snoc.
  assert (HQ : ~ written Q k)
    by (apply H, elem_of_app; right; apply list_elem_of_singleton;
        reflexivity).
  assert (IH' : (loop ks m).1.1 !! k = None)
    by (apply IH; intros Q' HQ'; apply H, elem_of_app; left; exact HQ').
  destruct (loop ks m) as [[st m'] cap]. rewrite body_state.
  unfold written in HQ. repeat case_decide; first [tauto | exact IH'].
Qed.

Lemma loop_state_pending ks m P :
  P ∈ ks -> (forall Q, Q ∈ ks -> ~ clashes P Q) ->
  (loop ks m).1.1 !! (P ++ js "Loaded") = Some (JBool false)
  /\ (loop ks m).1.1 !! (P ++ js "Error") = Some JUndefined
  /\ (loop ks m).1.1 !! P = Some JUndefined.
Proof.
  induction ks as [|Q ks IH] using rev_ind; intros HP H.
  - apply elem_of_nil in HP. destruct HP.
  - rewrite loop_snoc.
    assert (HQ : ~ clashes P Q)
      by (apply H, elem_of_app; right; apply list_elem_of_singleton;
          reflexivity).
    assert (Hc1 : P ++ js "Loaded" ≠ Q) by (unfold clashes in HQ; intuition).
    assert (Hc2 : P ++ js "Error" ≠ Q) by (unfold clashes in HQ; intuition).
    assert (Hc3 : P ≠ Q ++ js "Loaded") by (unfold clashes in HQ; intuition).
    assert (Hc4 : P ≠ Q ++ js "Error") by (unfold clashes in HQ; intuition).
    clear HQ.
    destruct (decide (Q = P)) as [->|Hne].
    + destruct (loop ks m) as [[st m'] cap]. rewrite !body_state.
      pose proof (Loaded_ne_key P). pose proof (Error_ne_key P).
      pose proof (Loaded_ne_Error P).
      repeat case_decide; try congruence; repeat split.
    + assert (HP' : P ∈ ks).
      { apply elem_of_app in HP as [HP|HP]; [exact HP|].
        apply list_elem_of_singleton in HP. congruence. }
      destruct IH as (H1 & H2 & H3);
        [exact HP' | intros Q' HQ'; apply H, elem_of_app; left; exact HQ'|].
      destruct (loop ks m) as [[st m'] cap]. rewrite !body_state.
      pose proof (Loaded_Error_mismatch P Q).
      pose proof (Loaded_Error_mismatch Q P).
      assert (P ++ js "Loaded" ≠ Q ++ js "Loaded")
        by (intros E; apply app_inv_tail in E; congruence).
      assert (P ++ js "Error" ≠ Q ++ js "Error")
        by (intros E; apply app_inv_tail in E; congruence).
      repeat case_decide; try congruence; try tauto; repeat split;
        assumption.
Qed.

(** *** The stale-response guard *)

(** X1: once [loadState] has been called again with the property [P], the
    settlement of a computation that an earlier call registered for [P]
    leaves the whole component as it is, however it settles and whatever
    calls and settlements happen in between.  This needs [P] not to be
    [__proto__], under which the iteration maps keep nothing, and [P] to
    have been registered fewer than 2^53 times when it is registered again,
    since the count stops there.  It holds as well for the names that
    [Object.prototype] has, whose iterations are strings. *)
Theorem X1_superseded_settlement_changes_nothing
    (c0 : component) (ks1 ks2 : list jsstring) (es1 es2 : list event)
    (P : jsstring) (o : outcome) :
  P ∈ ks1 -> P ∈ ks2 ->
  P ≠ js "__proto__" ->
  counter P (run (loadState ks1 c0).1 es1) < 2 ^ 53 ->
  let c1 := (loadState ks1 c0).1 in
  let cap1 := (loadState ks1 c0).2 in
  let c4 := run (loadState ks2 (run c1 es1)).1 es2 in
  (settle cap1 P o c4).1 = c4.
Proof.
  intros H1 H2 Hp Hlt.
  exact (stale_settlement_ignored c0 ks1 es1 ks2 es2 P o H1 H2 Hp Hlt).
Qed.

Lemma X1_witness :
  let c1 := (loadState [js "constructor"] initial).1 in
  let cap1 := (loadState [js "constructor"] initial).2 in
  let c4 :=
    run (loadState [js "run"; js "constructor"]
           (run c1 [EvLoadState [js "run"]])).1
      [EvSettle cap1 (js "run") (Fulfilled JNull)] in
  (settle cap1 (js "constructor") (Rejected (JStr (js "late"))) c4).1 = c4.
Proof.
  apply (X1_superseded_settlement_changes_nothing initial [js "constructor"]
           [js "run"; js "constructor"]);
    [apply list_elem_of_singleton; reflexivity
    | apply elem_of_cons; right; apply list_elem_of_singleton; reflexivity
    | discriminate
    | vm_compute; reflexivity].
Defined.

(** The iterations of an ordinary name are numbers, those of a name that
    [Object.prototype] has are strings that grow by a ['1'], and under
    [__proto__] both maps read [Object.prototype] whatever was registered. *)
Example iteration_values :
  let c1 := (loadState [js "task"; js "constructor"; js "__proto__"]
               initial).1 in
  let c2 := (loadState [js "task"; js "constructor"; js "__proto__"] c1).1 in
  (currentIteration (js "task") c1 = Some (Count 1)
   /\ currentIteration (js "task") c2 = Some (Count 2))
  /\ (currentIteration (js "constructor") c1
      = Some (Inherited (js "constructor") 1)
      /\ currentIteration (js "constructor") c2
         = Some (Inherited (js "constructor") 2))
  /\ (currentIteration (js "__proto__") c1 = Some Prototype
      /\ currentIteration (js "__proto__") c2 = Some Prototype).
Proof. vm_compute. repeat split. Qed.

(** Under [__proto__] the guard of [setLoaded] passes for a superseded
    computation too. *)
Example proto_is_never_stale :
  let c1 := (loadState [js "__proto__"] initial).1 in
  let cap1 := (loadState [js "__proto__"] initial).2 in
  let c2 := (loadState [js "__proto__"] c1).1 in
  Loaded_of (js "__proto__")
    (settle cap1 (js "__proto__") (Fulfilled JNull) c2).1
  = Some (JBool true).
Proof. vm_compute. reflexivity. Qed.

(** At 2^53 the count stays where it is, and the guard passes for a
    superseded computation. *)
Example count_stops :
  let c0 := {| state := ∅;
               this_promisedStateIterationMap :=
                 Some {[js "task" := Count (2 ^ 53 - 1)]} |} in
  let c1 := (loadState [js "task"] c0).1 in
  let cap1 := (loadState [js "task"] c0).2 in
  let c2 := (loadState [js "task"] c1).1 in
  currentIteration (js "task") c1 = Some (Count (2 ^ 53))
  /\ currentIteration (js "task") c2 = Some (Count (2 ^ 53))
  /\ Loaded_of (js "task")
       (settle cap1 (js "task") (Fulfilled JNull) c2).1
     = Some (JBool true).
Proof. vm_compute. repeat split. Qed.

(** X2: each call of [loadState] with [P] hands out for [P] an iteration
    value that differs from the one any earlier call handed out and is
    further on: a greater number, or a longer string for a name that
    [Object.prototype] has.  As for X1, [P] is not [__proto__] and has been
    registered fewer than 2^53 times when it is registered again. *)
Theorem X2_iteration_values_advance
    (c0 : component) (ks1 ks2 : list jsstring) (es : list event)
    (P : jsstring) :
  P ∈ ks1 -> P ∈ ks2 ->
  P ≠ js "__proto__" ->
  counter P (run (loadState ks1 c0).1 es) < 2 ^ 53 ->
  let cap1 := (loadState ks1 c0).2 in
  let cap2 := (loadState ks2 (run (loadState ks1 c0).1 es)).2 in
  measure (read cap1 P) < measure (read cap2 P)
  /\ read cap1 P ≠ read cap2 P.
Proof.
  intros H1 H2 Hp Hlt cap1 cap2.
  destruct (loadState_registers ks1 c0 P H1) as [Hcap1 _].
  destruct (loadState_registers ks2 (run (loadState ks1 c0).1 es) P H2)
    as [Hcap2 Hstrict].
  specialize (Hstrict Hp Hlt).
  pose proof (run_counter_mono es (loadState ks1 c0).1 P) as Hm.
  assert (Hmeasure : measure (read cap1 P) < measure (read cap2 P)).
  { unfold cap1, cap2. rewrite Hcap1, Hcap2.
    fold (counter P (loadState ks1 c0).1).
    fold (counter P (loadState ks2 (run (loadState ks1 c0).1 es)).1).
    lia. }
  split; [exact Hmeasure|].
  intros E. rewrite E in Hmeasure. lia.
Qed.

Lemma X2_witness :
  let cap1 := (loadState [js "task"] initial).2 in
  let cap2 := (loadState [js "task"]
                 (run (loadState [js "task"] initial).1
                    [EvLoadState [js "task"]])).2 in
  measure (read cap1 (js "task")) < measure (read cap2 (js "task"))
  /\ read cap1 (js "task") ≠ read cap2 (js "task").
Proof.
  apply (X2_iteration_values_advance initial [js "task"] [js "task"]
           [EvLoadState [js "task"]]);
    [apply list_elem_of_singleton; reflexivity
    | apply list_elem_of_singleton; reflexivity
    | discriminate
    | vm_compute; reflexivity].
Defined.





(** X5: when every computation of a call settles and no rejection has
    [undefined] or [null] as its reason, the promise that [loadState]
    returned is fulfilled with [undefined], rejections included. *)
Theorem X5_loadState_promise_fulfilled
    (schedule : list (jsstring * outcome)) (c : component) :
  Forall (fun ko => rejects_without_reason ko.2 = false) schedule ->
  (loadState_settled schedule c).2 = Fulfilled JUndefined.
Proof. apply loadState_settled_resolves. Qed.

Lemma X5_witness :
  (loadState_settled
     [(js "b", Rejected (JErr (js "Error") (js "404")));
      (js "a", Fulfilled (JNum 1))] initial).2
  = Fulfilled JUndefined.
Proof.
  apply X5_loadState_promise_fulfilled.
  constructor; [reflexivity|]. constructor; [reflexivity|]. constructor.
Defined.

(** *** What [loadState] writes at once *)

Lemma loadState_pending (ks : list jsstring) (c : component) (P : jsstring) :
  P ∈ ks -> (forall Q, Q ∈ ks -> ~ clashes P Q) ->
  let c' := (loadState ks c).1 in
  Loaded_of P c' = Some (JBool false)
  /\ Error_of P c' = Some JUndefined
  /\ value_of P c' = Some JUndefined.
Proof.
  intros HP Hc c'. subst c'. rewrite loadState_loop.
  unfold Loaded_of, Error_of, value_of, setState. cbn [fst state].
  destruct (loop_state_pending ks
              (default ∅ (this_promisedStateIterationMap c)) P HP Hc)
    as (H1 & H2 & H3).
  repeat split; erewrite lookup_union_Some_l; eauto.
Qed.


Lemma no_clash_self (P : jsstring) : ~ clashes P P.
Proof.
  pose proof (Loaded_ne_key P). pose proof (Error_ne_key P).
  unfold clashes. intuition congruence.
Qed.


(** A mapping with [task] and [taskLoaded] does clash: [taskLoaded] ends up
    [undefined], not [false]. *)
Example clash_example :
  Loaded_of (js "task")
    (loadState [js "task"; js "taskLoaded"] initial).1
  = Some JUndefined.
Proof. vm_compute. reflexivity. Qed.

(** X7: [loadState] writes only the three state fields of the properties
    of its mapping: every other key of [this.state] keeps its value. *)
Theorem X7_loadState_frame
    (ks : list jsstring) (c : component) (k : jsstring) :
  (forall Q, Q ∈ ks -> ~ written Q k) ->
  state (loadState ks c).1 !! k = state c !! k.
Proof.
  intros H. rewrite loadState_loop. unfold setState. cbn [fst state].
  rewrite lookup_union_r; [reflexivity|].
  apply loop_state_frame. exact H.
Qed.

Lemma X7_witness :
  state (loadState [js "task"]
           {| state := {[js "filter" := JStr (js "x")]};
              this_promisedStateIterationMap := None |}).1 !! js "filter"
  = Some (JStr (js "x")).
Proof.
  rewrite (X7_loadState_frame [js "task"]); [reflexivity|].
  intros Q HQ. apply list_elem_of_singleton in HQ. subst Q.
  unfold written. intros [H|[H|H]]; discriminate.
Defined.

(** X8: [loadState] with an empty mapping leaves [this.state] and every
    iteration count as they are, and its promise is fulfilled with
    [undefined]. *)
Theorem X8_loadState_empty_mapping (c : component) :
  state (loadState_settled [] c).1 = state c
  /\ (forall k, currentIteration k (loadState_settled [] c).1
                = currentIteration k c)
  /\ (loadState_settled [] c).2 = Fulfilled JUndefined.
Proof.
  unfold loadState_settled. cbn. unfold setState.
  rewrite (left_id ∅ (∪)). repeat split.
Qed.

(** X9: the settlement of a computation for [P] writes no key of
    [this.state] other than [P], [PLoaded] and [PError], and never changes
    an iteration count. *)
Theorem X9_settle_frame
    (cap : gmap jsstring iteration) (P : jsstring) (o : outcome) (c : component)
    (k : jsstring) :
  ~ written P k ->
  state (settle cap P o c).1 !! k = state c !! k
  /\ forall j, currentIteration j (settle cap P o c).1
               = currentIteration j c.
Proof.
  intros Hk. split; [|intros j; apply settle_currentIteration].
  assert (Hset : forall r e,
             state (setLoaded cap P r e c) !! k = state c !! k).
  { intros r e. unfold setLoaded. case_decide; [|reflexivity].
    unfold setState. cbn [state]. rewrite lookup_union_r; [reflexivity|].
    unfold written in Hk.
    rewrite !lookup_insert_ne by (intros E; apply Hk; auto).
    apply lookup_empty. }
  unfold settle, onFulfilled, onRejected.
  destruct o as [v|e]; [|destruct (get_property e "stack")]; cbn [fst];
    try apply Hset; reflexivity.
Qed.

Lemma X9_witness :
  state (settle (loadState [js "task"] initial).2 (js "task")
           (Fulfilled (JNum 1))
           (loadState [js "task"; js "run"] initial).1).1 !! js "runLoaded"
  = state (loadState [js "task"; js "run"] initial).1 !! js "runLoaded".
Proof.
  apply (X9_settle_frame (loadState [js "task"] initial).2 (js "task")).
  unfold written. intros [H|[H|H]]; discriminate.
Defined.

(** *** Rendering *)

(** X10: while a property of the mapping is pending, [renderWaitFor] shows
    the spinner. *)
Theorem X10_renderWaitFor_pending
    (ks : list jsstring) (c : component) (P : jsstring) :
  P ∈ ks -> (forall Q, Q ∈ ks -> ~ clashes P Q) ->
  renderWaitFor P (loadState ks c).1 = Some SpinnerElement.
Proof.
  intros HP Hc.
  destruct (loadState_pending ks c P HP Hc) as (H1 & _ & _).
  unfold renderWaitFor, state_get. unfold Loaded_of in H1. rewrite H1.
  reflexivity.
Qed.

Lemma X10_witness :
  renderWaitFor (js "task") (loadState [js "task"] initial).1
  = Some SpinnerElement.
Proof.
  apply (X10_renderWaitFor_pending [js "task"]).
  - apply list_elem_of_singleton. reflexivity.
  - intros Q HQ. apply list_elem_of_singleton in HQ. subst Q.
    apply no_clash_self.
Defined.

(** X11: after the latest computation for [P] has settled, [renderWaitFor]
    shows nothing when it was fulfilled, and the error element for the
    stored error when it was rejected with a reason other than [undefined]
    and [null]: the message of the reason if that is an error object, the
    message [Unknown Error] if the reason is falsy. *)
Theorem X11_renderWaitFor_settled
    (c : component) (ks : list jsstring) (es : list event)
    (P : jsstring) :
  P ∈ ks -> Forall (fun ev => ~ registers P ev) es ->
  let c' := run (loadState ks c).1 es in
  let cap := (loadState ks c).2 in
  (forall v, renderWaitFor P (settle cap P (Fulfilled v) c').1 = None)
  /\ (forall e, e ≠ JUndefined -> e ≠ JNull ->
       renderWaitFor P (settle cap P (Rejected e) c').1
       = Some (renderError
                 (if truthy e then e
                  else JErr (js "Error") (js "Unknown Error")))).
Proof.
  intros HP Hes c' cap. split.
  - intros v.
    destruct (current_settlement_fulfilled c ks es P v HP Hes)
      as (H1 & H2 & _).
    unfold renderWaitFor, state_get.
    unfold Loaded_of in H1. unfold Error_of in H2.
    fold c' cap in H1, H2. rewrite H1, H2. reflexivity.
  - intros e Hu Hn.
    destruct (current_settlement_rejected c ks es P e HP Hes Hu Hn)
      as (H1 & H2 & _).
    unfold renderWaitFor, state_get.
    unfold Loaded_of in H1. unfold Error_of in H2.
    fold c' cap in H1, H2. rewrite H1, H2. cbn [default id].
    change (truthy (JBool true)) with true. cbv iota.
    rewrite js_or_Error_truthy. reflexivity.
Qed.

Lemma X11_witness :
  renderWaitFor (js "task")
    (settle (loadState [js "task"] initial).2 (js "task")
       (Rejected (JErr (js "Error") (js "404")))
       (loadState [js "task"] initial).1).1
  = Some (ErrorElement (JStr (js "404"))).
Proof.
  destruct (X11_renderWaitFor_settled initial [js "task"] [] (js "task"))
    as [_ H]; [apply list_elem_of_singleton; reflexivity | constructor|].
  exact (H (JErr (js "Error") (js "404"))
           ltac:(discriminate) ltac:(discriminate)).
Defined.

End LoaderExtra.


(** ** More on the subscription manager: the handle, failures, restarts *)

Module WebListenerExtra.
Import WebListenerMixin WebListenerSpec.

(** The component holds a listener that exists and is not closed, or none;
    every other listener it ever constructed has been closed. *)
Definition handle_ok (c : component) : Prop :=
  (forall l, this_listener c = Some l ->
     exists w, listeners c !! l = Some w /\ closed w = false)
  /\ (forall i w, listeners c !! i = Some w -> this_listener c ≠ Some i ->
        closed w = true).

Lemma handle_ok_with_state f c : handle_ok c -> handle_ok (with_state f c).
Proof. intros H. exact H. Qed.

Lemma handle_ok_with_listener l f c :
  (forall w, closed (f w) = closed w) ->
  handle_ok c -> handle_ok (with_listener l f c).
Proof.
  intros Hf [H1 H2]. split.
  - intros l' Hl'. cbn [with_listener this_listener listeners] in *.
    destruct (H1 l' Hl') as (w & Hw & Hc).
    rewrite list_lookup_alter. case_decide as Hd.
    + subst l'. rewrite Hw. exists (f w). split; [reflexivity|].
      rewrite Hf. exact Hc.
    + exists w. split; assumption.
  - intros i w. cbn [with_listener this_listener listeners].
    rewrite list_lookup_alter. case_decide as Hd.
    + subst i. destruct (listeners c !! l) as [w0|] eqn:Hw0; [|discriminate].
      intros [= <-] Hne. rewrite Hf. exact (H2 l w0 Hw0 Hne).
    + apply H2.
Qed.

Lemma handle_ok_bind_loop l items c :
  handle_ok c -> handle_ok (bind_loop l items c).
Proof.
  revert c. induction items as [|b items IH]; intros c H; [exact H|].
  cbn. apply IH. apply handle_ok_with_listener; [reflexivity | exact H].
Qed.

(** Constructing a listener and taking it as the handle. *)
Lemma handle_ok_new c :
  this_listener c = None -> handle_ok c ->
  handle_ok {| state := state c;
               this_listener := Some (length (listeners c));
               listeners := listeners c ++ [new_WebListener] |}.
Proof.
  intros Hnone [_ H2]. split; cbn [this_listener listeners].
  - intros l [= <-]. exists new_WebListener.
    rewrite list_lookup_middle by reflexivity. split; reflexivity.
  - intros i w Hi Hne. apply lookup_app_Some in Hi as [Hi|[Hge Hi]].
    + apply (H2 i w Hi). rewrite Hnone. discriminate.
    + apply list_lookup_singleton_Some in Hi as [Hi _].
      exfalso. apply Hne. f_equal. lia.
Qed.

Lemma handle_ok_startListening bindings c :
  handle_ok c -> handle_ok (startListening bindings c).1.
Proof.
  intros H. unfold startListening.
  destruct (negb (truthy bindings) || is_zero (length_of bindings));
    [exact H|].
  destruct (this_listener c) as [l|] eqn:Hl.
  - destruct bindings; cbn [fst]; try exact H.
    apply (handle_ok_bind_loop l). exact H.
  - pose proof (handle_ok_new c Hl H) as H0.
    set (c0 := {| state := state c;
                  this_listener := Some (length (listeners c));
                  listeners := listeners c ++ [new_WebListener] |}) in *.
    assert (H1 : handle_ok
                   (with_listener (length (listeners c)) (listener_on "error")
                      (with_listener (length (listeners c))
                         (listener_on "message") c0)))
      by (repeat apply handle_ok_with_listener; try reflexivity; exact H0).
    destruct bindings; cbn [fst]; try exact H1.
    apply handle_ok_with_listener; [reflexivity|].
    apply handle_ok_with_state.
    apply (handle_ok_bind_loop (length (listeners c))). exact H1.
Qed.

Lemma handle_ok_stopListening c :
  handle_ok c -> handle_ok (stopListening c).1.
Proof.
  intros H.
  destruct (this_listener c) as [l|] eqn:Hl.
  - destruct H as [H1 H2].
    rewrite (stopListening_Some c l Hl). cbn [fst]. split.
    + cbn [this_listener]. discriminate.
    + intros i w. cbn [this_listener listeners].
      rewrite list_lookup_alter. case_decide as Hd.
      * subst i. destruct (listeners c !! l); [|discriminate].
        intros [= <-] _. reflexivity.
      * intros Hi _. apply (H2 i w Hi). congruence.
  - rewrite (stopListening_None c Hl). cbn [fst].
    apply handle_ok_with_state. exact H.
Qed.

Lemma handle_ok_step c e : handle_ok c -> handle_ok (step c e).
Proof.
  intros H. destruct e as [bindings| | |err|err|]; cbn [step].
  - apply handle_ok_startListening. exact H.
  - apply handle_ok_stopListening. exact H.
  - exact H.
  - apply handle_ok_stopListening. exact H.
  - apply handle_ok_stopListening. exact H.
  - apply handle_ok_stopListening. exact H.
Qed.

Lemma handle_ok_run es c : handle_ok c -> handle_ok (run c es).
Proof.
  revert c. induction es as [|e es IH]; intros c H; [exact H|].
  cbn. apply IH, handle_ok_step, H.
Qed.

Lemma handle_ok_initial : handle_ok initial.
Proof.
  split; [discriminate|]. intros i w H. cbn in H.
  rewrite lookup_nil in H. discriminate.
Qed.

(** X12: from the mount of a component on, through every sequence of
    calls of [startListening] and [stopListening] (with any argument),
    promise callbacks, [error] events and the unmount: the listener the
    component holds exists and has not been closed, and every other
    listener it constructed has been closed. *)
Theorem X12_no_open_listener_is_lost
    (options_bindings : list jsval) (es : list event) :
  handle_ok (run (componentDidMount options_bindings initial).1 es).
Proof.
  apply handle_ok_run. unfold componentDidMount.
  assert (H0 : handle_ok {| state := state initial; this_listener := None;
                            listeners := listeners initial |})
    by exact handle_ok_initial.
  destruct (0 <? length options_bindings)%nat; [|exact H0].
  pose proof (handle_ok_startListening
                (JNum (Z.of_nat (length options_bindings))) _ H0) as H.
  destruct (startListening _ _) as [c [p|e]]; exact H.
Qed.

(** *** The connection status *)

Lemma listening_ne_listeningError : js "listeningError" ≠ js "listening".
Proof. discriminate. Qed.

Lemma listening_state_lookup (v : jsval) (st : gmap jsstring jsval) :
  setState (listening_state v) st !! js "listening" = Some v
  /\ setState (listening_state v) st !! js "listeningError"
     = Some JUndefined.
Proof.
  unfold setState, listening_state. split.
  - erewrite lookup_union_Some_l; [reflexivity|].
    rewrite lookup_insert_ne by exact listening_ne_listeningError.
    apply lookup_insert_eq.
  - erewrite lookup_union_Some_l; [reflexivity|]. apply lookup_insert_eq.
Qed.

Lemma startListening_state items c :
  items ≠ [] ->
  state (startListening (JArr items) c).1
  = setState (listening_state JNull) (state c).
Proof.
  intros Hne. unfold startListening. rewrite (guard_nonempty items Hne).
  destruct (this_listener c) as [l|]; cbv beta zeta iota; cbn [fst].
  - fold (bind_loop l items
            (with_state (setState (listening_state JNull)) c)).
    rewrite bind_loop_state. reflexivity.
  - match goal with
    | |- context [foldl _ ?c0 items] =>
        change (foldl _ c0 items)
          with (bind_loop (length (listeners c)) items c0)
    end.
    cbn [with_listener with_state state].
    rewrite bind_loop_state. reflexivity.
Qed.

(** X13: [startListening] with a non-empty array sets [listening] to
    [null] and [listeningError] to [undefined], with or without a listener
    at hand; when its promise is fulfilled, [listening] becomes [true],
    [listeningError] stays [undefined] and the listener is kept. *)
Theorem X13_connecting_then_connected (items : list jsval) (c : component) :
  items ≠ [] ->
  let c1 := (startListening (JArr items) c).1 in
  let c2 := onListening c1 in
  state c1 !! js "listening" = Some JNull
  /\ state c1 !! js "listeningError" = Some JUndefined
  /\ state c2 !! js "listening" = Some (JBool true)
  /\ state c2 !! js "listeningError" = Some JUndefined
  /\ this_listener c2 = this_listener c1
  /\ listeners c2 = listeners c1.
Proof.
  intros Hne c1 c2. subst c1 c2. rewrite (startListening_state items c Hne).
  destruct (listening_state_lookup JNull (state c)) as [H1 H2].
  split; [exact H1|]. split; [exact H2|].
  unfold onListening. cbn [with_state state this_listener listeners].
  destruct (listening_state_lookup (JBool true)
              (state (startListening (JArr items) c).1)) as [H3 H4].
  repeat split; assumption.
Qed.

Lemma X13_witness :
  state (onListening
           (startListening (JArr [JStr (js "a")])
              {| state := {[js "listening" := JBool false;
                           js "listeningError" := JErr (js "Error") []]};
                 this_listener := None; listeners := [] |}).1)
    !! js "listening"
  = Some (JBool true).
Proof.
  destruct (X13_connecting_then_connected [JStr (js "a")]
              {| state := {[js "listening" := JBool false;
                           js "listeningError" := JErr (js "Error") []]};
                 this_listener := None; listeners := [] |})
    as (_ & _ & H & _); [discriminate|].
  exact H.
Defined.

(** *** Stopping and failing *)

Lemma not_listening_lookup (st : gmap jsstring jsval) :
  setState not_listening st !! js "listening" = Some (JBool false)
  /\ setState not_listening st !! js "listeningError"
     = st !! js "listeningError".
Proof.
  unfold setState, not_listening. split.
  - erewrite lookup_union_Some_l; [reflexivity|]. apply lookup_insert_eq.
  - rewrite lookup_union_r; [reflexivity|].
    rewrite lookup_insert_ne
      by (intros E; symmetry in E; exact (listening_ne_listeningError E)).
    apply lookup_empty.
Qed.

Lemma stopListening_open c l w :
  this_listener c = Some l -> listeners c !! l = Some w ->
  let c' := (stopListening c).1 in
  (stopListening c).2 = Closing l
  /\ this_listener c' = None
  /\ listeners c' !! l = Some (listener_close w)
  /\ (forall i, i ≠ l -> listeners c' !! i = listeners c !! i)
  /\ length (listeners c') = length (listeners c)
  /\ state c' = setState not_listening (state c).
Proof.
  intros Hl Hw c'. subst c'. rewrite (stopListening_Some c l Hl).
  cbn [fst snd this_listener listeners state].
  split; [reflexivity|]. split; [reflexivity|].
  split; [rewrite list_lookup_alter_eq, Hw; reflexivity|].
  split; [intros i Hi; apply list_lookup_alter_ne; congruence|].
  split; [apply length_alter | reflexivity].
Qed.

(** X14: [stopListening] on a component that holds a listener calls
    [close] on that listener and on no other, releases the handle, sets
    [listening] to [false] and returns the promise of [close]; the
    bindings of the listener and [listeningError] are left as they are. *)
Theorem X14_stopListening_closes_the_listener
    (c : component) (l : nat) (w : WebListener) :
  this_listener c = Some l -> listeners c !! l = Some w ->
  let c' := (stopListening c).1 in
  (stopListening c).2 = Closing l
  /\ this_listener c' = None
  /\ listeners c' !! l
     = Some {| handlers := handlers w; bound := bound w;
               resumed := resumed w; closed := true |}
  /\ (forall i, i ≠ l -> listeners c' !! i = listeners c !! i)
  /\ state c' !! js "listening" = Some (JBool false)
  /\ state c' !! js "listeningError" = state c !! js "listeningError".
Proof.
  intros Hl Hw c'.
  destruct (stopListening_open c l w Hl Hw) as (H1 & H2 & H3 & H4 & _ & H6).
  fold c' in H2, H3, H4, H6.
  destruct (not_listening_lookup (state c)) as [H7 H8].
  rewrite H6. repeat split; assumption.
Qed.

Lemma X14_witness :
  this_listener
    (stopListening (startListening (JArr [JStr (js "a")]) initial).1).1
  = None
  /\ listeners
       (stopListening (startListening (JArr [JStr (js "a")]) initial).1).1
       !! 0%nat
     = Some {| handlers := [js "message"; js "error"];
               bound := [JStr (js "a")]; resumed := true; closed := true |}.
Proof.
  destruct (X14_stopListening_closes_the_listener
              (startListening (JArr [JStr (js "a")]) initial).1 0
              {| handlers := [js "message"; js "error"];
                 bound := [JStr (js "a")]; resumed := true;
                 closed := false |})
    as (_ & H2 & H3 & _); [reflexivity | reflexivity |].
  split; [exact H2 | exact H3].
Defined.

(** X15: when the promise of [startListening] is rejected, or the listener
    emits an [error] event, the component stores a truthy
    [listeningError] (the error itself, or [new Error("Unknown error")]
    when it is falsy), sets [listening] to [false], releases the handle
    and closes the listener it held.  Both handlers leave the same
    component. *)
Theorem X15_failure_tears_down (err : jsval) (c : component) :
  let c' := (onFailure err c).1 in
  onError err c = c'
  /\ this_listener c' = None
  /\ state c' !! js "listening" = Some (JBool false)
  /\ state c' !! js "listeningError"
     = Some (if truthy err then err else JErr (js "Error") (js "Unknown error"))
  /\ (forall e, state c' !! js "listeningError" = Some e -> truthy e = true)
  /\ (forall l w, this_listener c = Some l -> listeners c !! l = Some w ->
        listeners c' !! l = Some (listener_close w)
        /\ (onFailure err c).2 = Closing l).
Proof.
  intros c'. subst c'. unfold onError, onFailure.
  set (e := if truthy err then err else new_Error "Unknown error").
  set (c1 := with_state (setState (<[js "listeningError" := e]> ∅)) c).
  assert (He : truthy e = true)
    by (unfold e; destruct (truthy err) eqn:E; [exact E | reflexivity]).
  assert (Hs : state (stopListening c1).1
               = setState not_listening (state c1)).
  { destruct (this_listener c1) as [l|] eqn:Hl.
    - rewrite (stopListening_Some c1 l Hl). reflexivity.
    - rewrite (stopListening_None c1 Hl). reflexivity. }
  assert (Herr : state (stopListening c1).1 !! js "listeningError" = Some e).
  { rewrite Hs. destruct (not_listening_lookup (state c1)) as [_ ->].
    unfold c1, setState. cbn [with_state state].
    erewrite lookup_union_Some_l; [reflexivity|]. apply lookup_insert_eq. }
  split; [reflexivity|]. split.
  { destruct (this_listener c1) as [l|] eqn:Hl.
    - rewrite (stopListening_Some c1 l Hl). reflexivity.
    - rewrite (stopListening_None c1 Hl). exact Hl. }
  split.
  { rewrite Hs. apply not_listening_lookup. }
  split; [exact Herr|]. split.
  { intros e' He'. rewrite Herr in He'. injection He' as <-. exact He. }
  intros l w Hl Hw.
  destruct (stopListening_open c1 l w Hl Hw) as (H1 & _ & H3 & _).
  split; [exact H3 | exact H1].
Qed.

(** X16: after [stopListening], a call of [startListening] with a
    non-empty array constructs a new listener and binds it to the filters
    of that call only: the bindings of the closed listener are not carried
    over. *)
Theorem X16_restart_binds_anew (c : component) (items : list jsval) :
  items ≠ [] ->
  let l := length (listeners c) in
  let c2 := (startListening (JArr items) (stopListening c).1).1 in
  this_listener c2 = Some l
  /\ length (listeners c2) = S l
  /\ listeners c2 !! l
     = Some {| handlers := [js "message"; js "error"]; bound := items;
               resumed := true; closed := false |}.
Proof.
  intros Hne l c2.
  assert (Hnone : this_listener (stopListening c).1 = None).
  { destruct (this_listener c) as [l0|] eqn:Hl.
    - rewrite (stopListening_Some c l0 Hl). reflexivity.
    - rewrite (stopListening_None c Hl). exact Hl. }
  assert (Hlen : length (listeners (stopListening c).1) = l).
  { destruct (this_listener c) as [l0|] eqn:Hl.
    - rewrite (stopListening_Some c l0 Hl). apply length_alter.
    - rewrite (stopListening_None c Hl). reflexivity. }
  destruct (startListening_first items (stopListening c).1 Hne Hnone)
    as (_ & H2 & H3 & H4).
  rewrite Hlen in H2, H3, H4. repeat split; assumption.
Qed.

Lemma X16_witness :
  listeners
    (startListening (JArr [JStr (js "b")])
       (stopListening
          (startListening (JArr [JStr (js "a")]) initial).1).1).1 !! 1%nat
  = Some {| handlers := [js "message"; js "error"];
            bound := [JStr (js "b")]; resumed := true; closed := false |}.
Proof.
  destruct (X16_restart_binds_anew
              (startListening (JArr [JStr (js "a")]) initial).1
              [JStr (js "b")]) as (_ & _ & H); [discriminate|].
  exact H.
Defined.

End WebListenerExtra.


(** ** More on the string helpers: any character, the encoded alphabet *)

Module StringsExtra.
Import StringsSpec.

(** X17: whatever the string, the pattern source that
    [escapeForRegularExpression] makes of it is, by the pattern grammar, a
    sequence of literal characters, and these are the characters of the
    string: the function escapes every syntax character, and every escape
    it writes is an identity escape. *)
Theorem X17_escaped_pattern_is_literal (s : jsstring) :
  RegExp (escapeForRegularExpression s) = Some s.
Proof. apply RegExp_escapeForRegularExpression. Qed.

(** *** The digits of [toString(16)] *)

Definition hex_char (x : N) : bool :=
  ((ch "0" <=? x) && (x <=? ch "9")) || ((ch "a" <=? x) && (x <=? ch "f")).

Lemma hexdigit_hex_char d : d < 16 -> hex_char (hexdigit d) = true.
Proof.
  intros Hd. unfold hex_char, hexdigit.
  change (ch "0") with 48. change (ch "9") with 57.
  change (ch "a") with 97. change (ch "f") with 102.
  destruct (d <? 10) eqn:E;
    [apply N.ltb_lt in E | apply N.ltb_ge in E];
    rewrite orb_true_iff, !andb_true_iff, !N.leb_le; lia.
Qed.

Lemma toString16_go_hex fuel n acc :
  Forall (fun x => hex_char x = true) acc ->
  Forall (fun x => hex_char x = true) (toString16_go fuel n acc).
Proof.
  revert n acc. induction fuel as [|fuel IH]; intros n acc Hacc; [exact Hacc|].
  cbn [toString16_go].
  assert (Hd : Forall (fun x => hex_char x = true)
                 (hexdigit (n mod 16) :: acc)).
  { constructor; [|exact Hacc]. apply hexdigit_hex_char.
    apply N.mod_lt. discriminate. }
  destruct (n / 16 =? 0); [exact Hd | apply IH, Hd].
Qed.

Lemma toString16_hex n : Forall (fun x => hex_char x = true) (toString16 n).
Proof. apply toString16_go_hex. constructor. Qed.

Lemma toString16_no_percent n : 37 ∉ toString16 n.
Proof.
  intros H. pose proof (toString16_hex n) as Hall.
  rewrite Forall_forall in Hall. specialize (Hall 37 H). discriminate.
Qed.

(** *** Escaping any character *)

Definition escape (c : N) (s : jsstring) : jsstring :=
  flat_map (fun x => if x =? c then percent_hex [c] else [x]) s.

Lemma escapeChar_escape (c : N) (s : jsstring) :
  escapeChar [c] s = Ok (escape c s).
Proof.
  unfold escapeChar. cbn [assert_length_1 length Nat.eqb bind].
  rewrite RegExp_escapeForRegularExpression. cbn [replace]. f_equal.
  induction s as [|x s IH]; [reflexivity|].
  cbn [replace_go prefixb length Nat.sub escape flat_map].
  fold (escape c s). rewrite andb_true_r, N.eqb_sym.
  destruct (x =? c); rewrite IH; reflexivity.
Qed.

Lemma unescapeChar_replace (c : N) (s : jsstring) :
  unescapeChar [c] s
  = Ok (replace_go (percent_hex [c]) (fun _ => [c]) 0 s).
Proof.
  unfold unescapeChar. cbn [assert_length_1 length Nat.eqb bind].
  rewrite RegExp_escapeForRegularExpression. reflexivity.
Qed.

Lemma prefixb_app (p r : jsstring) : prefixb p (p ++ r) = true.
Proof.
  induction p as [|a p IH]; [reflexivity|].
  cbn. rewrite N.eqb_refl, IH. reflexivity.
Qed.

Lemma replace_go_skip needle f (p rest : jsstring) :
  replace_go needle f (length p) (p ++ rest) = replace_go needle f 0 rest.
Proof. induction p as [|a p IH]; [reflexivity | exact IH]. Qed.

(** A match that starts at a character copied from [s] lies in [s]. *)
Lemma prefixb_escape (c : N) (p s : jsstring) :
  37 ∉ p -> prefixb p (escape c s) = true -> prefixb p s = true.
Proof.
  revert s. induction p as [|a p IH]; intros s Hp; [reflexivity|].
  rewrite not_elem_of_cons in Hp. destruct Hp as [Ha Hp].
  destruct s as [|y s]; [discriminate|].
  unfold escape. cbn [flat_map]. fold (escape c s).
  destruct (y =? c).
  - cbn [percent_hex app prefixb].
    change (ch "%") with 37. rewrite (proj2 (N.eqb_neq a 37)) by congruence.
    discriminate.
  - cbn [app prefixb]. rewrite !andb_true_iff. intros [H1 H2].
    split; [exact H1 | apply IH; assumption].
Qed.

Lemma unescape_escape (c : N) (s : jsstring) :
  includes (percent_hex [c]) s = false ->
  replace_go (percent_hex [c]) (fun _ => [c]) 0 (escape c s) = s.
Proof.
  induction s as [|x s IH]; [reflexivity|].
  cbn [includes]. rewrite orb_false_iff. intros [Hp Hs].
  specialize (IH Hs).
  unfold escape. cbn [flat_map]. fold (escape c s).
  destruct (x =? c) eqn:Hx.
  - apply N.eqb_eq in Hx. subst x.
    change (percent_hex [c]) with (ch "%" :: toString16 c) at 2.
    cbn [app replace_go].
    change (ch "%" :: toString16 c ++ escape c s)
      with (percent_hex [c] ++ escape c s).
    rewrite prefixb_app.
    change (length (percent_hex [c]) - 1)%nat
      with (length (toString16 c) - 0)%nat.
    rewrite Nat.sub_0_r, replace_go_skip, IH. reflexivity.
  - cbn [app replace_go].
    destruct (prefixb (percent_hex [c]) (x :: escape c s)) eqn:Hq.
    + exfalso. revert Hp Hq.
      change (percent_hex [c]) with (ch "%" :: toString16 c).
      cbn [prefixb]. rewrite andb_false_iff, andb_true_iff.
      intros Hp [H1 H2].
      apply (prefixb_escape c) in H2; [|apply toString16_no_percent].
      destruct Hp; congruence.
    + rewrite IH. reflexivity.
Qed.

(** X18: for every character [c] and every string [s] in which the escape
    sequence of [c] does not occur, [unescapeChar(c, escapeChar(c, s))] is
    [s]. *)
Theorem X18_unescapeChar_escapeChar_any_character (c : N) (s : jsstring) :
  includes (percent_hex [c]) s = false ->
  bind (escapeChar [c] s) (unescapeChar [c]) = Ok s.
Proof.
  intros H. rewrite escapeChar_escape. cbn [bind].
  rewrite unescapeChar_replace. f_equal. apply unescape_escape. exact H.
Qed.

Lemma X18_witness :
  bind (escapeChar (js "2") (js "a2b%2%3"))
    (unescapeChar (js "2")) = Ok (js "a2b%2%3").
Proof.
  apply (X18_unescapeChar_escapeChar_any_character (ch "2") (js "a2b%2%3")).
  reflexivity.
Defined.

(** X19: [escapeChar(c, s)] holds no [c] any more, for every character
    that does not occur in its own escape sequence (as the slash, unlike
    [%] or the digit [2]); and it leaves a string without [c] as it is. *)
Theorem X19_escapeChar_removes_the_character (c : N) (s : jsstring) :
  c ∉ percent_hex [c] ->
  exists r, escapeChar [c] s = Ok r
            /\ (c ∉ r)
            /\ (c ∉ s -> r = s).
Proof.
  intros Hc. exists (escape c s). split; [apply escapeChar_escape|]. split.
  - induction s as [|x s IH]; [apply not_elem_of_nil|].
    unfold escape. cbn [flat_map]. fold (escape c s).
    rewrite not_elem_of_app. split; [|exact IH].
    destruct (x =? c) eqn:Hx; [exact Hc|].
    apply N.eqb_neq in Hx. rewrite not_elem_of_cons.
    split; [congruence | apply not_elem_of_nil].
  - induction s as [|x s IH]; [reflexivity|].
    rewrite not_elem_of_cons. intros [Hx Hs].
    unfold escape. cbn [flat_map]. fold (escape c s).
    rewrite (proj2 (N.eqb_neq x c)) by congruence.
    cbn [app]. rewrite (IH Hs). reflexivity.
Qed.

Lemma X19_witness :
  exists r, escapeChar (js "/") (js "a/b") = Ok r /\ (ch "/" ∉ r).
Proof.
  destruct (X19_escapeChar_removes_the_character (ch "/") (js "a/b"))
    as (r & Hr & Hn & _).
  - intros H. vm_compute in H. repeat (apply elem_of_cons in H as [H|H];
      [discriminate|]). apply elem_of_nil in H. exact H.
  - exists r. split; [exact Hr | exact Hn].
Defined.

(** *** The alphabet of [encodeFragment] *)

Lemma hex_char_safe x : hex_char x = true -> fragment_safe x = true.
Proof.
  unfold hex_char, fragment_safe.
  change (ch "0") with 48. change (ch "9") with 57.
  change (ch "a") with 97. change (ch "f") with 102.
  change (ch "z") with 122.
  rewrite !orb_true_iff, !andb_true_iff, !N.leb_le.
  intros [[H1 H2]|[H1 H2]]; [left; right | left; left; left];
    rewrite ?andb_true_iff, ?N.leb_le; lia.
Qed.

(** X20: every character of [encodeFragment(s)] is one of the characters
    the function leaves alone or a [%]; and a string of characters it
    leaves alone comes back unchanged. *)
Theorem X20_encodeFragment_alphabet (s : jsstring) :
  (forall x, x ∈ encodeFragment s -> fragment_safe x = true \/ x = ch "%")
  /\ (forallb fragment_safe s = true -> encodeFragment s = s).
Proof.
  split.
  - induction s as [|c s IH]; intros x Hx.
    + apply elem_of_nil in Hx. destruct Hx.
    + unfold encodeFragment in Hx. cbn [flat_map] in Hx.
      fold (encodeFragment s) in Hx.
      apply elem_of_app in Hx as [Hx|Hx]; [|exact (IH x Hx)].
      destruct (fragment_safe c) eqn:Hc.
      * apply list_elem_of_singleton in Hx. subst x. left. exact Hc.
      * cbn [percent_hex] in Hx. apply elem_of_cons in Hx as [->|Hx];
          [right; reflexivity|].
        left. apply hex_char_safe.
        pose proof (toString16_hex c) as Hall.
        rewrite Forall_forall in Hall. exact (Hall x Hx).
  - induction s as [|c s IH]; [reflexivity|].
    cbn [forallb]. rewrite andb_true_iff. intros [Hc Hs].
    unfold encodeFragment. cbn [flat_map]. fold (encodeFragment s).
    rewrite Hc, (IH Hs). reflexivity.
Qed.

End StringsExtra.


(** ** More on the fragment synchronizer *)

Module LocationHashExtra.
Import LocationHashMixin StringsSpec LocationHashSpec.

(** X21: [decodeURIComponent] reads back what [encodeFragment] wrote, for
    every string of code units from 0x10 to 0x7f. *)
Theorem X21_decodeURIComponent_encodeFragment (s : jsstring) :
  forallb plain s = true ->
  decodeURIComponent (encodeFragment s) = Ok s.
Proof.
  intros H. unfold decodeURIComponent. rewrite (decode_encode_plain s H).
  reflexivity.
Qed.

Lemma X21_witness :
  decodeURIComponent (encodeFragment (js "a b/50%#<x>"))
  = Ok (js "a b/50%#<x>").
Proof.
  apply (X21_decodeURIComponent_encodeFragment (js "a b/50%#<x>")).
  reflexivity.
Defined.

(** X22: when the decoded fragment and the saved value hold code units from
    0x10 to 0x7f only and the segment at [hashIndex] is not the escaped
    saved value, [componentDidUpdate] rewrites the fragment so that the
    segment at [hashIndex] reads as the escaped value and every other
    segment reads as before; an index past the last segment adds empty
    segments in between. *)
Theorem X22_componentDidUpdate_replaces_one_segment
    (c : component) (s hash : jsstring) :
  decodeURIComponent (tail (location_hash c)) = Ok hash ->
  forallb plain hash = true -> forallb plain s = true ->
  fragment_at (hashIndex c) (split (ch "/") hash) ≠ escape_slash s ->
  exists c' fragments',
    componentDidUpdate (JStr s) c = Ok c'
    /\ fragments_of c' = Ok fragments'
    /\ fragment_at (hashIndex c) fragments' = escape_slash s
    /\ forall j, j ≠ hashIndex c ->
         fragment_at j fragments' = fragment_at j (split (ch "/") hash).
Proof.
  intros Hdec Hhash Hs Hne.
  destruct (componentDidUpdate_frame c s hash Hdec Hhash Hs Hne)
    as (c' & fs & Hu & _ & _ & _ & Hf & Hseg & Hother).
  exists c', fs. repeat split; assumption.
Qed.

Lemma X22_witness :
  exists c' fragments',
    componentDidUpdate (JStr (js "x/y"))
      {| location_hash := js "#a/b"; hashIndex := 3;
         this_previousHashFragment := None; load_calls := [] |} = Ok c'
    /\ fragments_of c' = Ok fragments'
    /\ fragment_at 3 fragments' = js "x%2fy"
    /\ fragment_at 0 fragments' = js "a".
Proof.
  destruct (X22_componentDidUpdate_replaces_one_segment
              {| location_hash := js "#a/b"; hashIndex := 3;
                 this_previousHashFragment := None; load_calls := [] |}
              (js "x/y") (js "a/b"))
    as (c' & fs & H1 & H2 & H3 & H4);
    [reflexivity | reflexivity | reflexivity | discriminate |].
  exists c', fs. split; [exact H1|]. split; [exact H2|].
  split; [exact H3|]. apply (H4 0%nat). discriminate.
Defined.

(** X23: under the same conditions, when the saved value does not hold
    [%2f] and its escaped form is not the segment remembered, the
    notification that follows the rewrite calls [options.load] with the
    saved value: what [save] wrote is what [load] reads. *)
Theorem X23_saved_value_is_loaded_back
    (c : component) (s hash : jsstring) :
  decodeURIComponent (tail (location_hash c)) = Ok hash ->
  forallb plain hash = true -> forallb plain s = true ->
  includes (js "%2f") s = false ->
  fragment_at (hashIndex c) (split (ch "/") hash) ≠ escape_slash s ->
  this_previousHashFragment c ≠ Some (escape_slash s) ->
  exists c' c'',
    componentDidUpdate (JStr s) c = Ok c'
    /\ handleHashChange c' = Ok c''
    /\ load_calls c'' = load_calls c ++ [s].
Proof.
  intros Hdec Hhash Hs Hinc Hne Hprev.
  destruct (save_then_load c s hash Hdec Hhash Hs Hinc Hne Hprev)
    as (c' & Hu & c'' & Hh & Hl).
  exists c', c''. repeat split; assumption.
Qed.

Lemma X23_witness :
  exists c' c'',
    componentDidUpdate (JStr (js "x/y"))
      {| location_hash := js "#a/old"; hashIndex := 1;
         this_previousHashFragment := Some (js "old");
         load_calls := [js "old"] |} = Ok c'
    /\ handleHashChange c' = Ok c''
    /\ load_calls c'' = [js "old"; js "x/y"].
Proof.
  apply (X23_saved_value_is_loaded_back
           {| location_hash := js "#a/old"; hashIndex := 1;
              this_previousHashFragment := Some (js "old");
              load_calls := [js "old"] |} (js "x/y") (js "a/old"));
    try reflexivity; discriminate.
Defined.

Lemma componentDidUpdate_same (c : component) (s : jsstring)
    (fragments : list jsstring) :
  fragments_of c = Ok fragments ->
  fragment_at (hashIndex c) fragments = escape_slash s ->
  componentDidUpdate (JStr s) c = Ok c.
Proof.
  intros Hf Hseg. unfold componentDidUpdate. rewrite Hf. cbn [bind].
  rewrite js_or_string, escapeChar_slash. cbn [bind].
  rewrite decide_True by exact Hseg. reflexivity.
Qed.

(** X24: [componentDidUpdate] settles after one call: with the same saved
    value, a second call finds the segment as it should be and leaves the
    fragment alone. *)
Theorem X24_componentDidUpdate_settles
    (c : component) (s hash : jsstring) :
  decodeURIComponent (tail (location_hash c)) = Ok hash ->
  forallb plain hash = true -> forallb plain s = true ->
  exists c',
    componentDidUpdate (JStr s) c = Ok c'
    /\ componentDidUpdate (JStr s) c' = Ok c'.
Proof.
  intros Hdec Hhash Hs.
  destruct (decide (fragment_at (hashIndex c) (split (ch "/") hash)
                    = escape_slash s)) as [Heq|Hne].
  - assert (Hf : fragments_of c = Ok (split (ch "/") hash))
      by (unfold fragments_of; rewrite Hdec; reflexivity).
    exists c. split; apply (componentDidUpdate_same c s _ Hf Heq).
  - destruct (componentDidUpdate_frame c s hash Hdec Hhash Hs Hne)
      as (c' & fs & Hu & Hi & _ & _ & Hf & Hseg & _).
    exists c'. split; [exact Hu|].
    apply (componentDidUpdate_same c' s fs Hf). rewrite Hi. exact Hseg.
Qed.

Lemma X24_witness :
  exists c',
    componentDidUpdate (JStr (js "new"))
      {| location_hash := js "#a/b/old/d"; hashIndex := 2;
         this_previousHashFragment := None; load_calls := [] |} = Ok c'
    /\ componentDidUpdate (JStr (js "new")) c' = Ok c'.
Proof.
  apply (X24_componentDidUpdate_settles
           {| location_hash := js "#a/b/old/d"; hashIndex := 2;
              this_previousHashFragment := None; load_calls := [] |}
           (js "new") (js "a/b/old/d")); reflexivity.
Defined.

Lemma segment_of_previous (c : component) (p : option jsstring)
    (calls : list jsstring) :
  segment_of {| location_hash := location_hash c; hashIndex := hashIndex c;
                this_previousHashFragment := p; load_calls := calls |}
  = segment_of c.
Proof. reflexivity. Qed.

(** X25: a second notification for the same fragment does nothing:
    [handleHashChange] calls [options.load] at most once for a value of
    its segment. *)
Theorem X25_handleHashChange_once (c c' : component) :
  handleHashChange c = Ok c' -> handleHashChange c' = Ok c'.
Proof.
  intros H. destruct (segment_of c) as [fragment|e] eqn:Hs.
  - destruct (decide (this_previousHashFragment c = Some fragment))
      as [Heq|Hne].
    + rewrite (handleHashChange_unchanged c fragment Hs Heq) in H.
      injection H as <-.
      exact (handleHashChange_unchanged c fragment Hs Heq).
    + rewrite (handleHashChange_changed c fragment Hs Hne) in H.
      injection H as <-.
      apply (handleHashChange_unchanged _ fragment); [|reflexivity].
      rewrite segment_of_previous. exact Hs.
  - rewrite (handleHashChange_throws c e Hs) in H. discriminate.
Qed.

Lemma X25_witness :
  handleHashChange
    {| location_hash := js "#a/x%252fy"; hashIndex := 1;
       this_previousHashFragment := Some (js "x%2fy");
       load_calls := [js "x/y"] |}
  = Ok {| location_hash := js "#a/x%252fy"; hashIndex := 1;
          this_previousHashFragment := Some (js "x%2fy");
          load_calls := [js "x/y"] |}.
Proof.
  apply (X25_handleHashChange_once
           {| location_hash := js "#a/x%252fy"; hashIndex := 1;
              this_previousHashFragment := None; load_calls := [] |}).
  reflexivity.
Defined.

(** X26: [componentWillMount] loads the initial value: whenever the
    fragment can be decoded, it calls [options.load] exactly once, with its
    segment unescaped (the empty string when the segment is missing), and
    remembers the segment, whatever was remembered before. *)
Theorem X26_componentWillMount_loads (c : component) (fragment : jsstring) :
  segment_of c = Ok fragment ->
  exists data,
    unescapeChar (js "/") fragment = Ok data
    /\ componentWillMount c
       = Ok {| location_hash := location_hash c;
               hashIndex := hashIndex c;
               this_previousHashFragment := Some fragment;
               load_calls := load_calls c ++ [data] |}.
Proof.
  intros Hs. eexists. split; [apply unescapeChar_slash|].
  unfold componentWillMount.
  rewrite (handleHashChange_changed _ fragment);
    [reflexivity | rewrite segment_of_previous; exact Hs | discriminate].
Qed.

Lemma X26_witness :
  exists data,
    unescapeChar (js "/") [] = Ok data
    /\ componentWillMount
         {| location_hash := []; hashIndex := 2;
            this_previousHashFragment := Some []; load_calls := [] |}
       = Ok {| location_hash := []; hashIndex := 2;
               this_previousHashFragment := Some [];
               load_calls := [] ++ [data] |}.
Proof.
  apply (X26_componentWillMount_loads
           {| location_hash := []; hashIndex := 2;
              this_previousHashFragment := Some []; load_calls := [] |} []).
  reflexivity.
Defined.

(** X27: [componentDidUpdate] writes the fragment only: it does not call
    [options.load] and does not touch the remembered segment, so its own
    write is seen as a change by the notification that follows;
    [handleHashChange] never writes the fragment. *)
Theorem X27_who_writes_what :
  (forall saved c c',
     componentDidUpdate saved c = Ok c' ->
     hashIndex c' = hashIndex c
     /\ this_previousHashFragment c' = this_previousHashFragment c
     /\ load_calls c' = load_calls c)
  /\ (forall c c',
        handleHashChange c = Ok c' ->
        location_hash c' = location_hash c /\ hashIndex c' = hashIndex c).
Proof.
  split.
  - intros saved c c'. unfold componentDidUpdate.
    destruct (fragments_of c) as [fs|e]; cbn [bind]; [|discriminate].
    match goal with |- context [bind ?x _] => destruct x as [nf|e] end;
      cbn [bind]; [|discriminate].
    case_decide; intros [= <-]; repeat split.
  - intros c c' H. destruct (segment_of c) as [fragment|e] eqn:Hs.
    + destruct (decide (this_previousHashFragment c = Some fragment))
        as [Heq|Hne].
      * rewrite (handleHashChange_unchanged c fragment Hs Heq) in H.
        injection H as <-. split; reflexivity.
      * rewrite (handleHashChange_changed c fragment Hs Hne) in H.
        injection H as <-. split; reflexivity.
    + rewrite (handleHashChange_throws c e Hs) in H. discriminate.
Qed.

(** *** The default [save] and [load] *)



End LocationHashExtra.
